(** * pingdisco: the subnet sweep of cmd/pingdisco/main.go

    A shallow embedding of [scanSubnet], [incrementIP], [pingHost],
    [resolveHostname], [getNetworkInterfaces] and [displayDevices], together
    with the parts of Go's [net], [os/exec] and [sort] packages that they
    call, the properties of the sweep stated in the specification, and
    further properties read off the code.

    Addresses are Go's [net.IP], a byte slice: here a list of integers in
    [0, 255], with the wrap-around of [uint8] arithmetic written out. *)

From Stdlib Require Import ZArith List Bool String Ascii Lia.
From Stdlib Require Import Permutation Sorted DecimalString.
Import ListNotations.

Local Open Scope Z_scope.

(** ** Outcome of a Go function that may panic *)

Inductive result (A : Type) : Type :=
| Ret (a : A)
| Panic.
Arguments Ret {A} a.
Arguments Panic {A}.

(** ** The part of package [net] that the sweep uses

    [getNetworkInterfaces] keeps only networks whose address has a 4-byte
    form ([To4() != nil]); [IP.Mask] and [IPNet.Contains] bring address and
    mask to that form before they work on them.  The model is the 4-byte
    ([IPv4len]) branch of these library functions. *)

Module net.

Definition IP : Type := list Z.
Definition IPMask : Type := list Z.

Record IPNet : Type := { IPNet_IP : IP; IPNet_Mask : IPMask }.

Definition IPv4len : nat := 4.

(** [func (ip IP) Mask(mask IPMask) IP]: [nil] when the lengths differ,
    otherwise [out[i] = ip[i] & mask[i]]. *)
Definition Mask (ip : IP) (mask : IPMask) : IP :=
  if Nat.eqb (List.length ip) (List.length mask)
  then map (fun p => Z.land (fst p) (snd p)) (combine ip mask)
  else [].

(** [func (n *IPNet) Contains(ip IP) bool]: false when the lengths differ,
    otherwise [nn[i]&m[i] == ip[i]&m[i]] for every byte. *)
Definition Contains (n : IPNet) (ip : IP) : bool :=
  let nn := IPNet_IP n in
  let m := IPNet_Mask n in
  Nat.eqb (List.length nn) IPv4len && Nat.eqb (List.length m) IPv4len
  && Nat.eqb (List.length ip) IPv4len
  && forallb (fun t => Z.land (fst (fst t)) (snd t) =? Z.land (snd (fst t)) (snd t))
             (combine (combine nn ip) m).

Definition decimal (b : Z) : string :=
  NilZero.string_of_uint (N.to_uint (Z.to_N b)).

(** [func (ip IP) String() string] on a 4-byte address: dotted decimal.
    Addresses of another length never reach the probe (the loop of
    [scanSubnet] runs only on addresses that [Contains] accepts); the model
    prints them as Go prints the nil address. *)
Definition String (ip : IP) : string :=
  match ip with
  | [a; b; c; d] =>
      (decimal a ++ "." ++ decimal b ++ "." ++ decimal c ++ "." ++ decimal d)%string
  | _ => "<nil>"%string
  end.

End net.

(** A byte, and a 4-byte address or mask. *)
Definition is_byte (b : Z) : Prop := 0 <= b < 256.

Definition ipv4 (ip : list Z) : Prop :=
  List.length ip = 4%nat /\ Forall is_byte ip.

(** A well-formed network: 4-byte address, 4-byte mask. *)
Definition wf_net (n : net.IPNet) : Prop :=
  ipv4 (net.IPNet_IP n) /\ ipv4 (net.IPNet_Mask n).

(** The NetworkRange of the specification: its base is network-aligned. *)
Definition network_range (n : net.IPNet) : Prop :=
  wf_net n /\ net.Mask (net.IPNet_IP n) (net.IPNet_Mask n) = net.IPNet_IP n.

(** ** [type Device struct] *)

Record Device : Type := { IP : net.IP; Online : bool; Hostname : string }.

(** ** [incrementIP]

    [for j := len(ip) - 1; j >= 0; j-- { ip[j]++; if ip[j] > 0 { break } }]:
    the loop walks the bytes from the last one; [ip[j]++] wraps at 256. *)

Fixpoint incr_from_last (bytes_from_last : list Z) : list Z :=
  match bytes_from_last with
  | [] => []
  | b :: higher =>
      let b' := (b + 1) mod 256 in
      if 0 <? b' then b' :: higher else b' :: incr_from_last higher
  end.

Definition incrementIP (ip : net.IP) : net.IP :=
  rev (incr_from_last (rev ip)).

(** ** The enumeration loop of [scanSubnet]

    [for ip := ip.Mask(ipnet.Mask); ipnet.Contains(ip); incrementIP(ip)]
    with the body [if ip[3] == 0 || ip[3] == 255 { continue }] followed by
    the launch of one goroutine on a copy of [ip].

    [sweep fuel n ip] runs at most [fuel] iterations from [ip]: it returns
    the addresses a goroutine was launched for, in launch order, and whether
    the loop has exited. *)

Definition final_octet (ip : net.IP) : Z := nth 3 ip 0.

Definition skipped (ip : net.IP) : bool :=
  (final_octet ip =? 0) || (final_octet ip =? 255).

Fixpoint sweep (fuel : nat) (n : net.IPNet) (ip : net.IP) : list net.IP * bool :=
  match fuel with
  | O => ([], false)
  | S fuel' =>
      if net.Contains n ip then
        let r := sweep fuel' n (incrementIP ip) in
        if skipped ip then r else (ip :: fst r, snd r)
      else ([], true)
  end.

(** The candidates among [k] consecutive addresses of one 256-block,
    from final octet [x]. *)
Fixpoint row (a b c x : Z) (k : nat) : list net.IP :=
  match k with
  | O => []
  | S k' =>
      if skipped [a; b; c; x] then row a b c (x + 1) k'
      else [a; b; c; x] :: row a b c (x + 1) k'
  end.

(** The start of the loop: [ip := ipnet.IP.Mask(ipnet.Mask)], then
    [ip := ip.Mask(ipnet.Mask)] in the loop's init statement. *)
Definition first_address (n : net.IPNet) : net.IP :=
  let ip := net.Mask (net.IPNet_IP n) (net.IPNet_Mask n) in
  net.Mask ip (net.IPNet_Mask n).

Definition launched (fuel : nat) (n : net.IPNet) : list net.IP :=
  fst (sweep fuel n (first_address n)).

(** The complete enumeration, when the loop exits within [fuel] iterations. *)
Definition enumerate (fuel : nat) (n : net.IPNet) : option (list net.IP) :=
  let r := sweep fuel n (first_address n) in
  if snd r then Some (fst r) else None.

(** ** [pingHost]

    [cmd.Run()] is the environment's answer: [cmd.ProcessState] is [nil]
    when the process could not be started (the executable is not found or
    may not be executed), and holds the exit status once a started process
    has been waited for.  The method [Success] of the process state reads
    the status through its receiver: on the nil receiver it is a nil
    dereference. *)

Module exec.

Record ProcessState : Type := { ExitStatus : Z }.

Definition Success (p : option ProcessState) : result bool :=
  match p with
  | None => Panic
  | Some st => Ret (ExitStatus st =? 0)
  end.

End exec.

Inductive GOOS : Type := windows | other_os.

Definition ping_argv (goos : GOOS) (host : string) : list string :=
  match goos with
  | windows => ["ping"; "-n"; "1"; "-w"; "1000"; host]%string
  | other_os => ["ping"; "-c"; "1"; "-W"; "1"; host]%string
  end.

Section PingHost.

(** The state [cmd.Run()] leaves in [cmd.ProcessState], by command line. *)
Variable Run : list string -> option exec.ProcessState.
Variable goos : GOOS.

Definition pingHost (host : string) : result bool :=
  let ProcessState := Run (ping_argv goos host) in
  exec.Success ProcessState.

End PingHost.

(** ** [resolveHostname] *)

Section ResolveHostname.

(** [net.LookupAddr]: the names and the error, if any. *)
Variable LookupAddr : string -> list string * option string.

Definition resolveHostname (ip : string) : result string :=
  let (names, err) := LookupAddr ip in
  match err, names with
  | Some _, _ => Ret EmptyString
  | None, [] => Ret EmptyString
  | None, hostname :: _ =>
      (* hostname[len(hostname)-1]: index -1 on the empty string panics *)
      match String.length hostname with
      | O => Panic
      | S k =>
          match String.get k hostname with
          | Some c =>
              if Ascii.eqb c "."%char
              then Ret (String.substring 0 k hostname)
              else Ret hostname
          | None => Panic
          end
      end
  end.

End ResolveHostname.

(** ** [scanSubnet]

    The prober and the resolver stand for [pingHost] and [resolveHostname]
    together with the environment they query: functions of the printed
    address. *)

(** [func(i, j int) bool { return devices[i].IP[3] < devices[j].IP[3] }] *)
Definition less (a b : Device) : bool := final_octet (IP a) <? final_octet (IP b).

(** The sort key: the final octet of the device's address. *)
Definition sort_key (d : Device) : Z := final_octet (IP d).

(** What [sort.Slice] guarantees of the slice it leaves: no element is
    [less] than one before it. *)
Definition sorted_by_less (devices : list Device) : Prop :=
  StronglySorted (fun a b => less b a = false) devices.

(** Insertion sort, the algorithm [sort.Slice] runs on short slices:
    each element moves left while it is [less] than its predecessor. *)
Fixpoint insert_left (d : Device) (sorted_prefix : list Device) : list Device :=
  match sorted_prefix with
  | [] => [d]
  | x :: rest => if less d x then d :: x :: rest else x :: insert_left d rest
  end.

Definition insertionSort (devices : list Device) : list Device :=
  fold_left (fun acc d => insert_left d acc) devices [].

Section ScanSubnet.

Variable prober : string -> bool.
Variable resolver : string -> string.

(** The body of one goroutine: what it appends to [devices]. *)
Definition worker (targetIP : net.IP) : list Device :=
  let online := prober (net.String targetIP) in
  if online then
    let hostname := resolver (net.String targetIP) in
    [ {| IP := targetIP; Online := online; Hostname := hostname |} ]
  else [].

(** The devices in the order of the launches. *)
Definition found (cands : list net.IP) : list Device := flat_map worker cands.

(** One run: the loop exits within [fuel] iterations, the goroutines
    append in the order [schedule] gives them the mutex, the slice is
    sorted. *)
Definition scanSubnet (fuel : nat) (schedule : list Device -> list Device)
           (ipnet : net.IPNet) : option (list Device) :=
  match enumerate fuel ipnet with
  | Some cands => Some (insertionSort (schedule (found cands)))
  | None => None
  end.

(** Every run: the goroutines append under the mutex in any order, and
    [sort.Slice] (which is not stable) leaves any sorted arrangement. *)
Inductive scanSubnet_returns (ipnet : net.IPNet) (devices : list Device) : Prop :=
| scan_run (fuel : nat) (cands : list net.IP) (appended : list Device) :
    enumerate fuel ipnet = Some cands ->
    Permutation (found cands) appended ->
    Permutation appended devices ->
    sorted_by_less devices ->
    scanSubnet_returns ipnet devices.

End ScanSubnet.

(** ** Concrete networks and fakes of the specification's scenarios *)

(** The network of address [a.b.c.d] with mask 255.255.255.0. *)
Definition net_slash24 (a b c d : Z) : net.IPNet :=
  {| net.IPNet_IP := [a; b; c; d]; net.IPNet_Mask := [255; 255; 255; 0] |}.

Definition net_10_0_0 : net.IPNet := net_slash24 10 0 0 0.

Definition net_192_168_1 : net.IPNet :=
  {| net.IPNet_IP := [192; 168; 1; 0]; net.IPNet_Mask := [255; 255; 255; 0] |}.

Definition fake_prober (host : string) : bool :=
  String.eqb host "192.168.1.1" || String.eqb host "192.168.1.50"
  || String.eqb host "192.168.1.254".

Definition fake_resolver (host : string) : string :=
  if String.eqb host "192.168.1.1" then "gateway.lan"%string else EmptyString.

Definition expected_devices : list Device :=
  [ {| IP := [192; 168; 1; 1]; Online := true; Hostname := "gateway.lan" |};
    {| IP := [192; 168; 1; 50]; Online := true; Hostname := EmptyString |};
    {| IP := [192; 168; 1; 254]; Online := true; Hostname := EmptyString |} ].

(** A prober that reports every address unreachable. *)
Definition prober_none (host : string) : bool := false.

(** The zero value of [Device]. *)
Definition no_device : Device :=
  {| IP := []; Online := false; Hostname := EmptyString |}.

Definition net_192_168_1_128 : net.IPNet :=
  {| net.IPNet_IP := [192; 168; 1; 128]; net.IPNet_Mask := [255; 255; 255; 128] |}.

Definition net_0_0_0_0 : net.IPNet :=
  {| net.IPNet_IP := [0; 0; 0; 0]; net.IPNet_Mask := [0; 0; 0; 0] |}.

(** ** The resolver in the words of the specification

    No name on a lookup failure or an empty result set; otherwise the first
    name, without its trailing dot when it ends in one. *)

Fixpoint strip_trailing_dot (name : string) : string :=
  match name with
  | EmptyString => EmptyString
  | String c EmptyString => if Ascii.eqb c "."%char then EmptyString else name
  | String c rest => String c (strip_trailing_dot rest)
  end.

Definition resolve_spec (lookup : list string * option string) : string :=
  match lookup with
  | (_, Some _) => EmptyString
  | ([], None) => EmptyString
  | (name :: _, None) => strip_trailing_dot name
  end.

(** [net.LookupAddr] returns validated domain names: it filters out the
    names that are not (the empty name among them) and reports an error
    for them. *)
Definition validated (lookup : list string * option string) : Prop :=
  Forall (fun name => name <> EmptyString) (fst lookup).

(** ** The address as a 32-bit big-endian number *)

Definition addr_value (ip : net.IP) : Z :=
  fold_left (fun acc b => acc * 256 + b) ip 0.

(** The addresses of the first [k] iterations of the loop from [ip]. *)
Definition visited (k : nat) (ip : net.IP) : list net.IP :=
  map (fun i => Nat.iter i incrementIP ip) (seq 0 k).

(** The device a goroutine appends for a reachable address. *)
Definition device_of (resolver : string -> string) (targetIP : net.IP) : Device :=
  {| IP := targetIP; Online := true;
     Hostname := resolver (net.String targetIP) |}.

(** A mask with [h] host bits: 32 - [h] leading one bits, then zeros. *)
Definition host_bits (mask : net.IPMask) (h : Z) : Prop :=
  addr_value mask = 2 ^ 32 - 2 ^ h.

(** ** [getNetworkInterfaces]

    The environment is what [net.Interfaces()] returns, with, for each
    interface, what its method [Addrs()] returns.  An address of an
    interface is a [net.Addr]: here a [*net.IPNet] or a value of another
    type, for which the type assertion [addr.( *net.IPNet)] fails. *)

Module netif.

(** [FlagUp Flags = 1 << iota], then [FlagBroadcast], [FlagLoopback]. *)
Definition FlagUp : Z := 1.
Definition FlagLoopback : Z := 4.

Inductive Addr : Type :=
| IPNetAddr (ipnet : net.IPNet)
| OtherAddr.

Record Interface : Type :=
  { Name : string; Flags : Z; Addrs : list Addr * option string }.

(** [func (ip IP) To4() IP]: the address itself when it has 4 bytes, the
    last 4 bytes of a 16-byte address with the prefix of an IPv4-mapped
    address (ten zero bytes, then 0xff 0xff), and [nil] otherwise. *)
Definition To4 (ip : net.IP) : option net.IP :=
  if Nat.eqb (List.length ip) 4 then Some ip
  else if Nat.eqb (List.length ip) 16
          && forallb (Z.eqb 0) (firstn 10 ip)
          && (nth 10 ip 0 =? 255) && (nth 11 ip 0 =? 255)
       then Some (skipn 12 ip)
       else None.

End netif.

Module NetworkInterface.

Record t : Type := { Name : string; IPNet : net.IPNet; IP : net.IP }.

End NetworkInterface.

(** The inner loop, [for _, addr := range addrs]: one address. *)
Definition append_addr (iface : netif.Interface)
           (interfaces : list NetworkInterface.t) (addr : netif.Addr)
  : list NetworkInterface.t :=
  match addr with
  | netif.IPNetAddr ipnet =>
      match netif.To4 (net.IPNet_IP ipnet) with
      | Some _ =>
          interfaces ++
          [ {| NetworkInterface.Name := netif.Name iface;
               NetworkInterface.IPNet := ipnet;
               NetworkInterface.IP := net.IPNet_IP ipnet |} ]
      | None => interfaces
      end
  | netif.OtherAddr => interfaces
  end.

(** [iface.Flags&net.FlagUp == 0 || iface.Flags&net.FlagLoopback != 0] *)
Definition down_or_loopback (iface : netif.Interface) : bool :=
  (Z.land (netif.Flags iface) netif.FlagUp =? 0)
  || negb (Z.land (netif.Flags iface) netif.FlagLoopback =? 0).

(** The outer loop, [for _, iface := range ifaces]: one interface. *)
Definition append_iface (interfaces : list NetworkInterface.t)
           (iface : netif.Interface) : list NetworkInterface.t :=
  if down_or_loopback iface then interfaces
  else
    match netif.Addrs iface with
    | (_, Some _) => interfaces
    | (addrs, None) => fold_left (append_addr iface) addrs interfaces
    end.

(** The result and the error, as Go returns them. *)
Definition getNetworkInterfaces (Interfaces : list netif.Interface * option string)
  : list NetworkInterface.t * option string :=
  match Interfaces with
  | (_, Some err) => ([], Some err)
  | (ifaces, None) => (fold_left append_iface ifaces [], None)
  end.

(** ** [displayDevices]

    What the function writes to the standard output, as one string. *)

Definition LF : string := String (Ascii.ascii_of_nat 10) EmptyString.

Fixpoint spaces (k : nat) : string :=
  match k with
  | O => EmptyString
  | S k' => String " "%char (spaces k')
  end.

(** The verb [%-15s]: the string, then spaces up to the width. *)
Definition pad_right (width : nat) (s : string) : string :=
  (s ++ spaces (width - String.length s))%string.

Definition device_line (device : Device) : string :=
  if negb (String.eqb (Hostname device) EmptyString) then
    ("  " ++ pad_right 15 (net.String (IP device)) ++ " - "
          ++ Hostname device ++ LF)%string
  else
    ("  " ++ pad_right 15 (net.String (IP device)) ++ " - "
          ++ "(no hostname)" ++ LF)%string.

Definition displayDevices (devices : list Device) : string :=
  if Nat.eqb (List.length devices) 0 then
    (LF ++ "No online devices found" ++ LF)%string
  else
    ((LF ++ "Online devices:" ++ LF)
       ++ ("---------------" ++ LF)
       ++ String.concat EmptyString (map device_line devices)
       ++ (LF ++ "Total online devices: "
              ++ net.decimal (Z.of_nat (List.length devices)) ++ LF))%string.

(** * Properties *)

(** ** The embedding on concrete inputs *)

Example incrementIP_carry :
  incrementIP [10; 0; 0; 41] = [10; 0; 0; 42]
  /\ incrementIP [10; 0; 255; 255] = [10; 1; 0; 0]
  /\ incrementIP [255; 255; 255; 255] = [0; 0; 0; 0].
Proof. repeat split; reflexivity. Qed.

Example Contains_example :
  net.Contains net_192_168_1 [192; 168; 1; 77] = true
  /\ net.Contains net_192_168_1 [192; 168; 2; 0] = false
  /\ net.Contains net_192_168_1_128 [192; 168; 1; 127] = false.
Proof. repeat split; reflexivity. Qed.

Example String_example : net.String [192; 168; 1; 50] = "192.168.1.50"%string.
Proof. reflexivity. Qed.

Example launched_first_iterations :
  launched 4 net_192_168_1 = [[192; 168; 1; 1]; [192; 168; 1; 2]; [192; 168; 1; 3]]
  /\ enumerate 4 net_192_168_1 = None.
Proof. split; reflexivity. Qed.

Example resolveHostname_examples :
  resolveHostname (fun _ => (["pihole.lan."]%string, None)) "192.168.86.107"
    = Ret "pihole.lan"%string
  /\ resolveHostname (fun _ => (["_gateway"]%string, None)) "192.168.86.1"
    = Ret "_gateway"%string
  /\ resolveHostname (fun _ => ([], None)) "192.168.86.48" = Ret EmptyString
  /\ resolveHostname (fun _ => ([], Some "no such host"%string)) "192.168.86.48"
    = Ret EmptyString.
Proof. repeat split; reflexivity. Qed.

(** The second scenario of the specification: 10.0.0.0 with mask
    255.255.255.0 and a prober that reports nothing reachable. *)
Example nothing_reachable :
  scanSubnet (fun _ => false) fake_resolver 257 (fun l => l) net_10_0_0 = Some [].
Proof. vm_compute. reflexivity. Qed.

(** The executable run sorts whatever order the goroutines appended in. *)
Example schedule_does_not_matter :
  scanSubnet fake_prober fake_resolver 257 (@rev Device) net_192_168_1
  = scanSubnet fake_prober fake_resolver 257 (fun l => l) net_192_168_1.
Proof. vm_compute. reflexivity. Qed.

(** ** Addresses and masks *)

Lemma length4_inv (A : Type) (l : list A) :
  List.length l = 4%nat -> exists a b c d, l = [a; b; c; d].
Proof.
  destruct l as [|a [|b [|c [|d [|e l]]]]]; simpl; try discriminate.
  intros _. now exists a, b, c, d.
Qed.

Lemma ipv4_inv (ip : list Z) :
  ipv4 ip ->
  exists a b c d,
    ip = [a; b; c; d] /\ is_byte a /\ is_byte b /\ is_byte c /\ is_byte d.
Proof.
  intros [Hlen Hall].
  destruct (length4_inv _ ip Hlen) as (a & b & c & d & ->).
  exists a, b, c, d.
  inversion_clear Hall as [|? ? Ha Hall1].
  inversion_clear Hall1 as [|? ? Hb Hall2].
  inversion_clear Hall2 as [|? ? Hc Hall3].
  inversion_clear Hall3 as [|? ? Hd _].
  auto.
Qed.

Lemma ipv4_intro (a b c d : Z) :
  is_byte a -> is_byte b -> is_byte c -> is_byte d -> ipv4 [a; b; c; d].
Proof. intros; split; [reflexivity | repeat (constructor; trivial)]. Qed.

Lemma land_byte (a m : Z) : is_byte a -> is_byte m -> is_byte (Z.land a m).
Proof.
  unfold is_byte; intros Ha Hm; split.
  - apply Z.land_nonneg; lia.
  - assert (Ha8 : a = Z.land a (Z.ones 8))
      by (rewrite Z.land_ones by lia; symmetry; apply Z.mod_small; simpl; lia).
    rewrite Ha8, <- Z.land_assoc, (Z.land_comm (Z.ones 8)), Z.land_assoc.
    rewrite Z.land_ones by lia.
    apply Z.mod_pos_bound; reflexivity.
Qed.

Lemma Mask_ipv4 (ip m : list Z) : ipv4 ip -> ipv4 m -> ipv4 (net.Mask ip m).
Proof.
  intros Hip Hm.
  destruct (ipv4_inv _ Hip) as (a & b & c & d & -> & ? & ? & ? & ?).
  destruct (ipv4_inv _ Hm) as (ma & mb & mc & md & -> & ? & ? & ? & ?).
  apply ipv4_intro; simpl; auto using land_byte.
Qed.

Lemma Mask_idem (ip m : list Z) : net.Mask (net.Mask ip m) m = net.Mask ip m.
Proof.
  unfold net.Mask.
  destruct (Nat.eqb (List.length ip) (List.length m)) eqn:E.
  - apply Nat.eqb_eq in E.
    rewrite length_map, length_combine, E, Nat.min_id, Nat.eqb_refl.
    clear E. revert m. induction ip as [|a ip IH]; intros [|x m]; simpl; trivial.
    now rewrite IH, <- Z.land_assoc, Z.land_diag.
  - now destruct m.
Qed.

Lemma first_address_Mask (n : net.IPNet) :
  first_address n = net.Mask (net.IPNet_IP n) (net.IPNet_Mask n).
Proof. apply Mask_idem. Qed.

Lemma Contains_length (n : net.IPNet) (ip : net.IP) :
  net.Contains n ip = true ->
  List.length (net.IPNet_IP n) = 4%nat /\ List.length (net.IPNet_Mask n) = 4%nat
  /\ List.length ip = 4%nat.
Proof.
  unfold net.Contains, net.IPv4len. intros H.
  repeat (apply andb_true_iff in H; destruct H as [H ?]).
  repeat split; now apply Nat.eqb_eq.
Qed.

(** On 4-byte operands, [Contains] is the comparison of the masked address
    with the masked network address. *)
Lemma Contains_iff_Mask (n : net.IPNet) (ip : net.IP) :
  List.length (net.IPNet_IP n) = 4%nat -> List.length (net.IPNet_Mask n) = 4%nat ->
  List.length ip = 4%nat ->
  net.Contains n ip = true <->
  net.Mask ip (net.IPNet_Mask n) = net.Mask (net.IPNet_IP n) (net.IPNet_Mask n).
Proof.
  destruct n as [nn m]; simpl. intros Hn Hm Hi.
  destruct (length4_inv _ nn Hn) as (a & b & c & d & ->).
  destruct (length4_inv _ m Hm) as (ma & mb & mc & md & ->).
  destruct (length4_inv _ ip Hi) as (x & y & z & w & ->).
  unfold net.Contains, net.Mask; simpl.
  rewrite !andb_true_iff, !Z.eqb_eq. split.
  - intros (-> & -> & -> & -> & _). reflexivity.
  - intros H; injection H as -> -> -> ->. auto.
Qed.

Lemma Contains_Mask (n : net.IPNet) (ip : net.IP) :
  net.Contains n ip = true ->
  net.Mask ip (net.IPNet_Mask n) = first_address n.
Proof.
  intros H. rewrite first_address_Mask.
  destruct (Contains_length _ _ H) as (Hn & Hm & Hi).
  now apply Contains_iff_Mask.
Qed.

(** ** [incrementIP] keeps 4-byte addresses 4-byte *)

Lemma incr_byte (b : Z) :
  is_byte b ->
  (b = 255 /\ (b + 1) mod 256 = 0) \/ (b < 255 /\ (b + 1) mod 256 = b + 1).
Proof.
  unfold is_byte; intros Hb.
  destruct (Z.eq_dec b 255) as [->|Hne]; [left; now split|right].
  split; [lia|apply Z.mod_small; lia].
Qed.

Lemma incrementIP_length (ip : net.IP) :
  List.length (incrementIP ip) = List.length ip.
Proof.
  unfold incrementIP. rewrite length_rev, <- (length_rev ip).
  induction (rev ip) as [|b l IH]; simpl; trivial.
  destruct (0 <? (b + 1) mod 256); simpl; auto.
Qed.

(** The four iterations of the loop of [incrementIP], written out. *)
Lemma incrementIP_4 (a b c d : Z) :
  is_byte a -> is_byte b -> is_byte c -> is_byte d ->
  incrementIP [a; b; c; d] =
  if d <? 255 then [a; b; c; d + 1]
  else if c <? 255 then [a; b; c + 1; 0]
  else if b <? 255 then [a; b + 1; 0; 0]
  else if a <? 255 then [a + 1; 0; 0; 0]
  else [0; 0; 0; 0].
Proof.
  intros Ha Hb Hc Hd. unfold incrementIP; simpl.
  destruct (incr_byte d Hd) as [[-> ->]|[Hlt ->]]; simpl;
    [|rewrite (proj2 (Z.ltb_lt d 255) Hlt);
      unfold is_byte in Hd;
      now rewrite (proj2 (Z.ltb_lt 0 (d + 1))) by lia].
  destruct (incr_byte c Hc) as [[-> ->]|[Hlt ->]]; simpl;
    [|rewrite (proj2 (Z.ltb_lt c 255) Hlt);
      unfold is_byte in Hc;
      now rewrite (proj2 (Z.ltb_lt 0 (c + 1))) by lia].
  destruct (incr_byte b Hb) as [[-> ->]|[Hlt ->]]; simpl;
    [|rewrite (proj2 (Z.ltb_lt b 255) Hlt);
      unfold is_byte in Hb;
      now rewrite (proj2 (Z.ltb_lt 0 (b + 1))) by lia].
  destruct (incr_byte a Ha) as [[-> ->]|[Hlt ->]]; simpl;
    [|rewrite (proj2 (Z.ltb_lt a 255) Hlt);
      unfold is_byte in Ha;
      now rewrite (proj2 (Z.ltb_lt 0 (a + 1))) by lia].
  reflexivity.
Qed.

Lemma incrementIP_ipv4 (ip : net.IP) : ipv4 ip -> ipv4 (incrementIP ip).
Proof.
  intros Hip.
  destruct (ipv4_inv _ Hip) as (a & b & c & d & -> & Ha & Hb & Hc & Hd).
  rewrite incrementIP_4 by assumption.
  unfold is_byte in *.
  destruct (Z.ltb_spec d 255); [apply ipv4_intro; unfold is_byte; lia|].
  destruct (Z.ltb_spec c 255); [apply ipv4_intro; unfold is_byte; lia|].
  destruct (Z.ltb_spec b 255); [apply ipv4_intro; unfold is_byte; lia|].
  destruct (Z.ltb_spec a 255); apply ipv4_intro; unfold is_byte; lia.
Qed.

(** ** The loop *)

Lemma sweep_launched (fuel : nat) (n : net.IPNet) (ip c : net.IP) :
  In c (fst (sweep fuel n ip)) -> net.Contains n c = true /\ skipped c = false.
Proof.
  revert ip. induction fuel as [|fuel IH]; intros ip; simpl; [tauto|].
  destruct (net.Contains n ip) eqn:HC; simpl; [|tauto].
  destruct (skipped ip) eqn:HS; simpl; [apply IH|].
  intros [<-|Hin]; [auto|eapply IH; eauto].
Qed.

Lemma sweep_S (fuel : nat) (n : net.IPNet) (ip : net.IP) :
  sweep (S fuel) n ip =
  if net.Contains n ip then
    let r := sweep fuel n (incrementIP ip) in
    if skipped ip then r else (ip :: fst r, snd r)
  else ([], true).
Proof. reflexivity. Qed.

Lemma row_S (a b c x : Z) (k : nat) :
  row a b c x (S k) =
  if skipped [a; b; c; x] then row a b c (x + 1) k
  else [a; b; c; x] :: row a b c (x + 1) k.
Proof. reflexivity. Qed.

(** Once the loop has exited, more fuel changes nothing. *)
Lemma sweep_enough (fuel : nat) (n : net.IPNet) (ip : net.IP) :
  snd (sweep fuel n ip) = true ->
  forall fuel', (fuel <= fuel')%nat -> sweep fuel' n ip = sweep fuel n ip.
Proof.
  revert ip. induction fuel as [|fuel IH]; intros ip; simpl; [discriminate|].
  intros Hdone [|fuel'] Hle; [lia|]. simpl.
  destruct (net.Contains n ip); trivial.
  assert (Hrec : snd (sweep fuel n (incrementIP ip)) = true)
    by (destruct (skipped ip); assumption).
  now rewrite (IH _ Hrec fuel') by lia.
Qed.

Lemma enumerate_deterministic (n : net.IPNet) (f1 f2 : nat) (c1 c2 : list net.IP) :
  enumerate f1 n = Some c1 -> enumerate f2 n = Some c2 -> c1 = c2.
Proof.
  unfold enumerate. intros H1 H2.
  destruct (snd (sweep f1 n (first_address n))) eqn:E1; [|discriminate].
  destruct (snd (sweep f2 n (first_address n))) eqn:E2; [|discriminate].
  injection H1 as <-. injection H2 as <-.
  destruct (Nat.le_ge_cases f1 f2) as [Hle|Hle].
  - now rewrite (sweep_enough _ _ _ E1 _ Hle).
  - now rewrite (sweep_enough _ _ _ E2 _ Hle).
Qed.

Lemma enumerate_launched (fuel : nat) (n : net.IPNet) (cands : list net.IP) :
  enumerate fuel n = Some cands -> launched fuel n = cands.
Proof.
  unfold enumerate, launched.
  destruct (snd (sweep fuel n (first_address n))); congruence.
Qed.

(** ** Networks with the mask 255.255.255.0 *)

Lemma land_255 (a : Z) : is_byte a -> Z.land a 255 = a.
Proof.
  unfold is_byte; intros Ha. change 255 with (Z.ones 8).
  rewrite Z.land_ones by lia. apply Z.mod_small. simpl; lia.
Qed.

Section Slash24.

Variables a b c d : Z.
Hypothesis Ha : is_byte a.
Hypothesis Hb : is_byte b.
Hypothesis Hc : is_byte c.

Lemma first_address_24 : first_address (net_slash24 a b c d) = [a; b; c; 0].
Proof.
  rewrite first_address_Mask. unfold net.Mask; simpl.
  now rewrite !land_255, Z.land_0_r by assumption.
Qed.

Lemma Contains_24 (x y z w : Z) :
  is_byte x -> is_byte y -> is_byte z ->
  net.Contains (net_slash24 a b c d) [x; y; z; w] = (a =? x) && (b =? y) && (c =? z).
Proof.
  intros Hx Hy Hz. unfold net.Contains; simpl.
  rewrite !land_255, !Z.land_0_r by assumption.
  now rewrite Z.eqb_refl, !andb_true_r, !andb_assoc.
Qed.

Lemma Contains_24_row (x : Z) : net.Contains (net_slash24 a b c d) [a; b; c; x] = true.
Proof. rewrite Contains_24 by assumption. now rewrite !Z.eqb_refl. Qed.

(** After the last address of the block the loop exits. *)
Lemma Contains_24_next : net.Contains (net_slash24 a b c d) (incrementIP [a; b; c; 255]) = false.
Proof.
  rewrite incrementIP_4 by (unfold is_byte in *; auto; lia).
  unfold is_byte in *. change (255 <? 255) with false. cbv iota.
  destruct (Z.ltb_spec c 255).
  { rewrite Contains_24 by (unfold is_byte; lia).
    replace (c =? c + 1) with false by (symmetry; apply Z.eqb_neq; lia).
    apply andb_false_r. }
  destruct (Z.ltb_spec b 255).
  { rewrite Contains_24 by (unfold is_byte; lia).
    replace (c =? 0) with false by (symmetry; apply Z.eqb_neq; lia).
    apply andb_false_r. }
  destruct (Z.ltb_spec a 255).
  { rewrite Contains_24 by (unfold is_byte; lia).
    replace (c =? 0) with false by (symmetry; apply Z.eqb_neq; lia).
    apply andb_false_r. }
  rewrite Contains_24 by (unfold is_byte; lia).
  replace (c =? 0) with false by (symmetry; apply Z.eqb_neq; lia).
  apply andb_false_r.
Qed.

Lemma sweep_24_row (k : nat) :
  forall x, 0 <= x -> x + Z.of_nat k = 255 ->
  sweep (S (S k)) (net_slash24 a b c d) [a; b; c; x] = (row a b c x (S k), true).
Proof.
  induction k as [|k IH]; intros x Hx Hk.
  - replace x with 255 by lia.
    rewrite 2 sweep_S, Contains_24_row, Contains_24_next. reflexivity.
  - rewrite sweep_S, (row_S a b c x (S k)), Contains_24_row.
    rewrite incrementIP_4 by (unfold is_byte in *; auto; lia).
    rewrite (proj2 (Z.ltb_lt x 255)) by lia.
    rewrite (IH (x + 1)) by lia.
    destruct (skipped [a; b; c; x]); reflexivity.
Qed.

Lemma enumerate_24 : enumerate 257 (net_slash24 a b c d) = Some (row a b c 0 256).
Proof.
  unfold enumerate. rewrite first_address_24.
  now rewrite (sweep_24_row 255 0) by lia.
Qed.

Lemma row_24_explicit :
  row a b c 0 256 = map (fun y => [a; b; c; Z.of_nat y]) (seq 1 254).
Proof. vm_compute. reflexivity. Qed.

End Slash24.

(** A network given by its mask 255.255.255.0 and any 4-byte address. *)
Lemma slash24_inv (n : net.IPNet) :
  wf_net n -> net.IPNet_Mask n = [255; 255; 255; 0] ->
  exists a b c d,
    n = net_slash24 a b c d
    /\ is_byte a /\ is_byte b /\ is_byte c /\ is_byte d.
Proof.
  destruct n as [nn m]; unfold wf_net; simpl. intros [Hip _] ->.
  destruct (ipv4_inv _ Hip) as (a & b & c & d & -> & H).
  now exists a, b, c, d.
Qed.

(** ** The network 0.0.0.0 with mask 0.0.0.0 *)

Lemma Contains_mask_0 (ip : net.IP) :
  List.length ip = 4%nat -> net.Contains net_0_0_0_0 ip = true.
Proof.
  intros Hlen. destruct (length4_inv _ ip Hlen) as (x & y & z & w & ->).
  unfold net.Contains; simpl. now rewrite !Z.land_0_r.
Qed.

Lemma sweep_mask_0_running (fuel : nat) :
  forall ip, List.length ip = 4%nat -> snd (sweep fuel net_0_0_0_0 ip) = false.
Proof.
  induction fuel as [|fuel IH]; intros ip Hlen; simpl; trivial.
  rewrite Contains_mask_0 by assumption.
  assert (Hrec := IH (incrementIP ip) ltac:(now rewrite incrementIP_length)).
  destruct (skipped ip); assumption.
Qed.

Lemma network_range_intro (n : net.IPNet) :
  forallb (fun x => (0 <=? x) && (x <? 256)) (net.IPNet_IP n) = true ->
  forallb (fun x => (0 <=? x) && (x <? 256)) (net.IPNet_Mask n) = true ->
  List.length (net.IPNet_IP n) = 4%nat -> List.length (net.IPNet_Mask n) = 4%nat ->
  net.Mask (net.IPNet_IP n) (net.IPNet_Mask n) = net.IPNet_IP n ->
  network_range n.
Proof.
  intros Hi Hm Li Lm Hal.
  assert (Hb : forall l, forallb (fun x => (0 <=? x) && (x <? 256)) l = true ->
                         Forall is_byte l).
  { intros l Hl. apply Forall_forall. intros x Hx.
    rewrite forallb_forall in Hl. specialize (Hl x Hx).
    apply andb_true_iff in Hl. destruct Hl as [H1 H2].
    apply Z.leb_le in H1. apply Z.ltb_lt in H2. now split. }
  repeat split; auto.
Qed.

(** ** Claims on the enumeration *)

(** C3, as stated, fails: in the range 192.168.1.128 with mask
    255.255.255.128 the network address 192.168.1.128 is itself a candidate
    (its final octet is neither 0 nor 255). *)
Lemma candidates_include_network_address :
  network_range net_192_168_1_128
  /\ enumerate 129 net_192_168_1_128 <> None
  /\ In (net.IPNet_IP net_192_168_1_128) (launched 129 net_192_168_1_128).
Proof.
  split; [apply network_range_intro; reflexivity|].
  split; [vm_compute; discriminate|].
  vm_compute. left. reflexivity.
Qed.

(** C3, amended: every candidate of a range is contained in it (the
    candidate AND the mask is the base) and its final octet is neither 0 nor
    255; so it is not the network address whenever the final octet of the
    network address is 0. *)
Theorem candidates_contained_final_octet (n : net.IPNet) (fuel : nat) (cand : net.IP) :
  network_range n ->
  In cand (launched fuel n) ->
  net.Mask cand (net.IPNet_Mask n) = net.IPNet_IP n
  /\ final_octet cand <> 0 /\ final_octet cand <> 255
  /\ (final_octet (net.IPNet_IP n) = 0 -> cand <> net.IPNet_IP n).
Proof.
  intros [_ Haligned] Hin.
  apply sweep_launched in Hin. destruct Hin as [HC HS].
  apply Contains_Mask in HC. rewrite first_address_Mask, Haligned in HC.
  unfold skipped in HS. apply orb_false_iff in HS. destruct HS as [H0 H255].
  apply Z.eqb_neq in H0, H255.
  repeat split; trivial.
  intros Hbase ->. contradiction.
Qed.

Lemma candidates_contained_final_octet_witness :
  net.Mask [192; 168; 1; 1] (net.IPNet_Mask net_192_168_1) = net.IPNet_IP net_192_168_1
  /\ final_octet [192; 168; 1; 1] <> 0 /\ final_octet [192; 168; 1; 1] <> 255
  /\ (final_octet (net.IPNet_IP net_192_168_1) = 0 ->
      [192; 168; 1; 1] <> net.IPNet_IP net_192_168_1).
Proof.
  apply (candidates_contained_final_octet net_192_168_1 2 [192; 168; 1; 1]).
  - apply network_range_intro; reflexivity.
  - vm_compute. left. reflexivity.
Defined.

(** C2, as stated, fails: the enumeration of 192.168.1.0 with mask
    255.255.255.0 has 254 candidates, not 253. *)
Lemma slash24_has_not_253_candidates :
  option_map (@List.length net.IP) (enumerate 257 net_192_168_1) = Some 254%nat
  /\ 254%nat <> 253%nat.
Proof. split; [vm_compute; reflexivity|discriminate]. Qed.

(** C2, amended: for every network with mask 255.255.255.0 the loop exits
    and the enumeration has exactly 254 candidates: the addresses of the
    block of the network's address with final octets 1 to 254, in this
    order. *)
Theorem slash24_has_254_candidates (n : net.IPNet) :
  wf_net n ->
  net.IPNet_Mask n = [255; 255; 255; 0] ->
  exists cands,
    enumerate 257 n = Some cands
    /\ cands = map (fun y => firstn 3 (net.IPNet_IP n) ++ [Z.of_nat y]) (seq 1 254)
    /\ (forall x, In x cands <->
                  exists y, 1 <= y <= 254 /\ x = firstn 3 (net.IPNet_IP n) ++ [y])
    /\ List.length cands = 254%nat
    /\ (forall fuel cands', enumerate fuel n = Some cands' -> cands' = cands).
Proof.
  intros Hwf Hmask.
  destruct (slash24_inv n Hwf Hmask) as (a & b & c & d & -> & Ha & Hb & Hc & Hd).
  exists (row a b c 0 256).
  assert (He := enumerate_24 a b c d Ha Hb Hc).
  assert (Hrow : row a b c 0 256
                 = map (fun y => firstn 3 (net.IPNet_IP (net_slash24 a b c d))
                                   ++ [Z.of_nat y]) (seq 1 254))
    by apply row_24_explicit.
  split; [exact He|]. split; [exact Hrow|]. split; [|split].
  - intros x. rewrite Hrow, in_map_iff. split.
    + intros (k & <- & Hk). apply in_seq in Hk.
      exists (Z.of_nat k). split; [lia|reflexivity].
    + intros (y & Hy & ->). exists (Z.to_nat y). split.
      * now rewrite Z2Nat.id by lia.
      * apply in_seq. lia.
  - rewrite Hrow. now rewrite length_map, length_seq.
  - intros fuel cands' H'. eapply enumerate_deterministic; eassumption.
Qed.

Lemma slash24_has_254_candidates_witness :
  exists cands,
    enumerate 257 net_192_168_1 = Some cands
    /\ cands = map (fun y => firstn 3 (net.IPNet_IP net_192_168_1) ++ [Z.of_nat y])
                   (seq 1 254)
    /\ (forall x, In x cands <->
                  exists y, 1 <= y <= 254
                            /\ x = firstn 3 (net.IPNet_IP net_192_168_1) ++ [y])
    /\ List.length cands = 254%nat
    /\ (forall fuel cands', enumerate fuel net_192_168_1 = Some cands' -> cands' = cands).
Proof.
  apply (slash24_has_254_candidates net_192_168_1).
  - refine (proj1 (network_range_intro _ _ _ _ _ _)); reflexivity.
  - reflexivity.
Defined.

(** C8 at the range 0.0.0.0 with mask 0.0.0.0 (base AND mask is the base):
    every address is contained, the increment wraps from 255.255.255.255 to
    0.0.0.0, and the loop never exits, whatever the number of iterations. *)
Theorem enumeration_of_mask_0_never_ends :
  network_range net_0_0_0_0
  /\ forall fuel, enumerate fuel net_0_0_0_0 = None.
Proof.
  split; [apply network_range_intro; reflexivity|].
  intros fuel. unfold enumerate.
  now rewrite sweep_mask_0_running by reflexivity.
Qed.

(** ** Sorting by the final octet *)

Lemma less_false_iff (x y : Device) :
  less y x = false <-> sort_key x <= sort_key y.
Proof. unfold less, sort_key. rewrite Z.ltb_ge. tauto. Qed.

Lemma sorted_by_less_cons (d : Device) (l : list Device) :
  sorted_by_less (d :: l) <->
  sorted_by_less l /\ forall x, In x l -> sort_key d <= sort_key x.
Proof.
  unfold sorted_by_less. split.
  - intros H. apply StronglySorted_inv in H. destruct H as [Hs Hall].
    split; trivial. rewrite Forall_forall in Hall.
    intros x Hx. now apply less_false_iff, Hall.
  - intros [Hs Hall]. constructor; trivial.
    apply Forall_forall. intros x Hx. now apply less_false_iff, Hall.
Qed.

Lemma insert_left_perm (d : Device) (l : list Device) :
  Permutation (d :: l) (insert_left d l).
Proof.
  induction l as [|x l IH]; simpl; [reflexivity|].
  destruct (less d x); [reflexivity|].
  rewrite perm_swap. now constructor.
Qed.

Lemma insert_left_sorted (d : Device) (l : list Device) :
  sorted_by_less l -> sorted_by_less (insert_left d l).
Proof.
  induction l as [|x l IH]; intros Hs; simpl.
  - apply sorted_by_less_cons. split; [constructor|intros ? []].
  - apply sorted_by_less_cons in Hs. destruct Hs as [Hs Hx].
    destruct (less d x) eqn:Hlt.
    + unfold less in Hlt. apply Z.ltb_lt in Hlt. fold (sort_key d) (sort_key x) in Hlt.
      apply sorted_by_less_cons. split.
      * now apply sorted_by_less_cons.
      * intros y [<-|Hy]; [lia|]. specialize (Hx y Hy). lia.
    + apply less_false_iff in Hlt.
      apply sorted_by_less_cons. split; [auto|].
      intros y Hy.
      apply (Permutation_in _ (Permutation_sym (insert_left_perm d l))) in Hy.
      destruct Hy as [<-|Hy]; auto.
Qed.

Lemma insertionSort_from (l acc : list Device) :
  sorted_by_less acc ->
  sorted_by_less (fold_left (fun acc d => insert_left d acc) l acc)
  /\ Permutation (l ++ acc) (fold_left (fun acc d => insert_left d acc) l acc).
Proof.
  revert acc. induction l as [|d l IH]; intros acc Hacc; simpl.
  - split; [assumption|reflexivity].
  - destruct (IH (insert_left d acc) (insert_left_sorted d acc Hacc)) as [Hs Hp].
    split; [assumption|].
    rewrite <- Hp. rewrite <- insert_left_perm.
    apply Permutation_middle.
Qed.

Lemma insertionSort_sorted (l : list Device) : sorted_by_less (insertionSort l).
Proof. apply insertionSort_from. constructor. Qed.

Lemma insertionSort_perm (l : list Device) : Permutation l (insertionSort l).
Proof.
  rewrite <- (app_nil_r l) at 1. apply insertionSort_from. constructor.
Qed.

(** The order of a sorted slice, by index. *)
Lemma sorted_by_less_nth (l : list Device) (d0 : Device) :
  sorted_by_less l ->
  forall i j, (i < j < List.length l)%nat ->
  sort_key (nth i l d0) <= sort_key (nth j l d0).
Proof.
  induction l as [|x l IH]; intros Hs i j Hij; simpl in Hij; [lia|].
  apply sorted_by_less_cons in Hs. destruct Hs as [Hs Hx].
  destruct j as [|j]; [lia|]. destruct i as [|i]; simpl.
  - apply Hx, nth_In. lia.
  - apply IH; [assumption|lia].
Qed.

Lemma NoDup_map_injective (A B : Type) (f : A -> B) (l : list A) (x y : A) :
  NoDup (map f l) -> In x l -> In y l -> f x = f y -> x = y.
Proof.
  induction l as [|a l IH]; simpl; [tauto|].
  intros Hnd Hx Hy Hf. inversion_clear Hnd as [|? ? Hnotin Hnd'].
  destruct Hx as [->|Hx], Hy as [->|Hy]; trivial.
  - exfalso. apply Hnotin. rewrite Hf. now apply in_map.
  - exfalso. apply Hnotin. rewrite <- Hf. now apply in_map.
  - auto.
Qed.

(** Two sorted arrangements of the same devices are the same sequence when
    the sort keys are pairwise different. *)
Lemma sorted_arrangement_unique (l1 : list Device) :
  forall l2,
  sorted_by_less l1 -> sorted_by_less l2 -> Permutation l1 l2 ->
  NoDup (map sort_key l1) -> l1 = l2.
Proof.
  induction l1 as [|a l1 IH]; intros l2 Hs1 Hs2 Hp Hnd.
  - now apply Permutation_nil in Hp.
  - destruct l2 as [|b l2];
      [apply Permutation_sym, Permutation_nil in Hp; discriminate|].
    assert (Hab : a = b).
    { apply (NoDup_map_injective _ _ sort_key (a :: l1)); trivial.
      - now left.
      - apply (Permutation_in _ (Permutation_sym Hp)). now left.
      - apply sorted_by_less_cons in Hs1, Hs2.
        destruct Hs1 as [_ Ha], Hs2 as [_ Hb].
        assert (Hb_in : In b (a :: l1))
          by (apply (Permutation_in _ (Permutation_sym Hp)); now left).
        assert (Ha_in : In a (b :: l2))
          by (apply (Permutation_in _ Hp); now left).
        assert (sort_key a <= sort_key b)
          by (destruct Hb_in as [<-|Hin]; [lia|auto]).
        assert (sort_key b <= sort_key a)
          by (destruct Ha_in as [<-|Hin]; [lia|auto]).
        lia. }
    subst b. f_equal.
    apply sorted_by_less_cons in Hs1, Hs2.
    apply IH; try tauto.
    + now apply Permutation_cons_inv in Hp.
    + now inversion Hnd.
Qed.

(** ** The sweep *)

Section ScanSubnetFacts.

Variable prober : string -> bool.
Variable resolver : string -> string.

Lemma worker_In (targetIP : net.IP) (d : Device) :
  In d (worker prober resolver targetIP) <->
  prober (net.String targetIP) = true
  /\ d = {| IP := targetIP; Online := true;
            Hostname := resolver (net.String targetIP) |}.
Proof.
  unfold worker. destruct (prober (net.String targetIP)); simpl.
  - split; [intros [<-|[]]; auto|intros [_ ->]; auto].
  - split; [tauto|intros [H _]; discriminate].
Qed.

Lemma found_In (cands : list net.IP) (d : Device) :
  In d (found prober resolver cands) <->
  exists targetIP,
    In targetIP cands /\ prober (net.String targetIP) = true
    /\ d = {| IP := targetIP; Online := true;
              Hostname := resolver (net.String targetIP) |}.
Proof.
  unfold found. rewrite in_flat_map.
  split; intros (c & Hc & H); exists c; split; trivial; now apply worker_In.
Qed.

Lemma found_none (cands : list net.IP) :
  (forall c, In c cands -> prober (net.String c) = false) ->
  found prober resolver cands = [].
Proof.
  induction cands as [|c cands IH]; intros H; simpl; trivial.
  unfold worker. rewrite (H c) by now left.
  simpl. apply IH. intros c' Hc'. apply H. now right.
Qed.

(** What a returned slice is: a sorted arrangement of the devices found
    for the complete enumeration. *)
Lemma scanSubnet_returns_inv (ipnet : net.IPNet) (devices : list Device) :
  scanSubnet_returns prober resolver ipnet devices ->
  exists fuel cands,
    enumerate fuel ipnet = Some cands
    /\ Permutation (found prober resolver cands) devices
    /\ sorted_by_less devices.
Proof.
  intros [fuel cands appended He Hp1 Hp2 Hs].
  exists fuel, cands. repeat split; trivial. now transitivity appended.
Qed.

(** The executable run is one of the runs, when its schedule only
    reorders the appends. *)
Lemma scanSubnet_run_returns (fuel : nat) (schedule : list Device -> list Device)
      (ipnet : net.IPNet) (devices : list Device) :
  (forall l, Permutation l (schedule l)) ->
  scanSubnet prober resolver fuel schedule ipnet = Some devices ->
  scanSubnet_returns prober resolver ipnet devices.
Proof.
  intros Hsched. unfold scanSubnet.
  destruct (enumerate fuel ipnet) as [cands|] eqn:He; [|discriminate].
  intros H; injection H as <-.
  apply (scan_run _ _ _ _ fuel cands (schedule (found prober resolver cands)));
    auto using insertionSort_perm, insertionSort_sorted.
Qed.

Lemma scanSubnet_run_sorted (fuel : nat) (schedule : list Device -> list Device)
      (ipnet : net.IPNet) (devices : list Device) :
  scanSubnet prober resolver fuel schedule ipnet = Some devices ->
  sorted_by_less devices.
Proof.
  unfold scanSubnet.
  destruct (enumerate fuel ipnet) as [cands|]; [|discriminate].
  intros H; injection H as <-. apply insertionSort_sorted.
Qed.

(** Two returned slices of the same network arrange the same devices. *)
Lemma scanSubnet_returns_perm (ipnet : net.IPNet) (r1 r2 : list Device) :
  scanSubnet_returns prober resolver ipnet r1 ->
  scanSubnet_returns prober resolver ipnet r2 ->
  Permutation r1 r2.
Proof.
  intros H1 H2.
  apply scanSubnet_returns_inv in H1, H2.
  destruct H1 as (f1 & c1 & He1 & Hp1 & _), H2 as (f2 & c2 & He2 & Hp2 & _).
  rewrite (enumerate_deterministic _ _ _ _ _ He1 He2) in Hp1.
  now rewrite <- Hp1, <- Hp2.
Qed.

End ScanSubnetFacts.

(** ** Claims on the sweep *)

(** C6: the slice [scanSubnet] returns is in ascending order of the final
    octet of the addresses: an entry never has a smaller final octet than an
    entry before it.  This holds of every run, and of the executable run
    under any schedule. *)
Theorem scan_result_sorted_by_final_octet
        (prober : string -> bool) (resolver : string -> string)
        (ipnet : net.IPNet) (devices : list Device) (d0 : Device) :
  scanSubnet_returns prober resolver ipnet devices
  \/ (exists fuel schedule, scanSubnet prober resolver fuel schedule ipnet = Some devices) ->
  forall i j, (i < j < List.length devices)%nat ->
  final_octet (IP (nth i devices d0)) <= final_octet (IP (nth j devices d0)).
Proof.
  intros H. apply (sorted_by_less_nth devices d0).
  destruct H as [H|(fuel & schedule & H)].
  - apply scanSubnet_returns_inv in H. now destruct H as (_ & _ & _ & _ & Hs).
  - eapply scanSubnet_run_sorted; eassumption.
Qed.

Lemma scan_result_sorted_by_final_octet_witness :
  final_octet (IP (nth 0 expected_devices no_device))
  <= final_octet (IP (nth 2 expected_devices no_device)).
Proof.
  apply (scan_result_sorted_by_final_octet fake_prober fake_resolver net_192_168_1
           expected_devices no_device).
  - right. exists 257%nat, (@rev Device). vm_compute. reflexivity.
  - simpl. lia.
Defined.

(** C9: with a prober and a resolver that are functions of the address,
    two sweeps of the same range return the same set of (address, hostname)
    pairs, and the same sequence when no two devices of the result share a
    final octet. *)
Theorem sweeps_agree
        (prober : string -> bool) (resolver : string -> string)
        (ipnet : net.IPNet) (r1 r2 : list Device) :
  scanSubnet_returns prober resolver ipnet r1 ->
  scanSubnet_returns prober resolver ipnet r2 ->
  (forall entry, In entry (map (fun d => (IP d, Hostname d)) r1)
                 <-> In entry (map (fun d => (IP d, Hostname d)) r2))
  /\ (NoDup (map (fun d => final_octet (IP d)) r1) -> r1 = r2).
Proof.
  intros H1 H2.
  assert (Hp := scanSubnet_returns_perm _ _ _ _ _ H1 H2).
  split.
  - intros entry. split; apply Permutation_in, Permutation_map;
      [assumption|now apply Permutation_sym].
  - intros Hnd.
    apply scanSubnet_returns_inv in H1, H2.
    destruct H1 as (_ & _ & _ & _ & Hs1), H2 as (_ & _ & _ & _ & Hs2).
    now apply sorted_arrangement_unique.
Qed.

Lemma sweeps_agree_witness :
  (forall entry, In entry (map (fun d => (IP d, Hostname d)) expected_devices)
                 <-> In entry (map (fun d => (IP d, Hostname d)) expected_devices))
  /\ (NoDup (map (fun d => final_octet (IP d)) expected_devices) ->
      expected_devices = expected_devices).
Proof.
  apply (sweeps_agree fake_prober fake_resolver net_192_168_1).
  - apply (scanSubnet_run_returns _ _ 257 (fun l => l)).
    + intros l. reflexivity.
    + vm_compute. reflexivity.
  - apply (scanSubnet_run_returns _ _ 300 (@rev Device)).
    + intros l. apply Permutation_rev.
    + vm_compute. reflexivity.
Defined.

(** X17: every device of a returned slice is online, and its address is a
    candidate the prober reported reachable; when the enumeration ends and
    the prober reports every candidate unreachable, the sweep returns the
    empty slice and nothing else. *)
Theorem devices_online_and_reachable
        (prober : string -> bool) (resolver : string -> string) (ipnet : net.IPNet) :
  (forall devices, scanSubnet_returns prober resolver ipnet devices ->
     forall d, In d devices ->
       Online d = true /\ prober (net.String (IP d)) = true
       /\ exists fuel, enumerate fuel ipnet <> None /\ In (IP d) (launched fuel ipnet))
  /\ (forall fuel cands, enumerate fuel ipnet = Some cands ->
        (forall c, In c cands -> prober (net.String c) = false) ->
        scanSubnet prober resolver fuel (fun l => l) ipnet = Some []
        /\ scanSubnet_returns prober resolver ipnet []
        /\ forall devices, scanSubnet_returns prober resolver ipnet devices ->
                           devices = []).
Proof.
  split.
  - intros devices H d Hd.
    apply scanSubnet_returns_inv in H. destruct H as (fuel & cands & He & Hp & _).
    apply (Permutation_in _ (Permutation_sym Hp)) in Hd.
    apply found_In in Hd. destruct Hd as (c & Hc & Hprobe & ->). simpl.
    repeat split; trivial.
    exists fuel. rewrite (enumerate_launched _ _ _ He). split; [congruence|assumption].
  - intros fuel cands He Hnone.
    assert (Hrun : scanSubnet prober resolver fuel (fun l => l) ipnet = Some []).
    { unfold scanSubnet. rewrite He. now rewrite found_none. }
    split; [exact Hrun|]. split.
    + apply (scanSubnet_run_returns _ _ fuel (fun l => l)); trivial.
    + intros devices H.
      apply scanSubnet_returns_inv in H. destruct H as (f' & c' & He' & Hp & _).
      rewrite (enumerate_deterministic _ _ _ _ _ He' He) in Hp.
      rewrite found_none in Hp by assumption.
      now apply Permutation_nil in Hp.
Qed.

Lemma enumerate_mask_0 (fuel : nat) : enumerate fuel net_0_0_0_0 = None.
Proof.
  unfold enumerate. now rewrite sweep_mask_0_running by reflexivity.
Qed.

(** C10 at the range 0.0.0.0 with mask 0.0.0.0 and a prober that reports
    every address unreachable: the loop of the enumeration never exits, so
    the sweep returns no slice at all, the empty one included, under any
    schedule and for any number of iterations. *)
Theorem no_result_at_mask_0 (resolver : string -> string) :
  network_range net_0_0_0_0
  /\ (forall c, prober_none (net.String c) = false)
  /\ (forall fuel schedule,
        scanSubnet prober_none resolver fuel schedule net_0_0_0_0 = None)
  /\ (forall devices,
        ~ scanSubnet_returns prober_none resolver net_0_0_0_0 devices).
Proof.
  split; [apply network_range_intro; reflexivity|].
  split; [reflexivity|]. split.
  - intros fuel schedule. unfold scanSubnet. now rewrite enumerate_mask_0.
  - intros devices H. apply scanSubnet_returns_inv in H.
    destruct H as (fuel & cands & He & _).
    rewrite enumerate_mask_0 in He. discriminate.
Qed.

(** C1: the end-to-end scenario.  For 192.168.1.0 with mask 255.255.255.0,
    a prober that reports 192.168.1.1, 192.168.1.50 and 192.168.1.254
    reachable and nothing else, and a resolver that names 192.168.1.1
    gateway.lan and nothing else, the sweep returns the three devices in
    this order, and returns nothing else. *)
Theorem end_to_end_scenario :
  scanSubnet fake_prober fake_resolver 257 (fun l => l) net_192_168_1
  = Some expected_devices
  /\ scanSubnet_returns fake_prober fake_resolver net_192_168_1 expected_devices
  /\ forall devices,
       scanSubnet_returns fake_prober fake_resolver net_192_168_1 devices ->
       devices = expected_devices.
Proof.
  assert (Hrun : scanSubnet fake_prober fake_resolver 257 (fun l => l) net_192_168_1
                 = Some expected_devices) by (vm_compute; reflexivity).
  assert (Hret : scanSubnet_returns fake_prober fake_resolver net_192_168_1
                                    expected_devices)
    by (apply (scanSubnet_run_returns _ _ 257 (fun l => l)); trivial).
  split; [exact Hrun|]. split; [exact Hret|].
  intros devices H. symmetry.
  assert (Hp := scanSubnet_returns_perm _ _ _ _ _ Hret H).
  apply scanSubnet_returns_inv in H, Hret.
  destruct H as (_ & _ & _ & _ & Hs), Hret as (_ & _ & _ & _ & Hs').
  apply sorted_arrangement_unique; trivial.
  vm_compute. repeat constructor; simpl; intuition discriminate.
Qed.

(** ** [pingHost] *)

Lemma pingHost_started (Run : list string -> option exec.ProcessState)
      (goos : GOOS) (host : string) (st : exec.ProcessState) :
  Run (ping_argv goos host) = Some st ->
  pingHost Run goos host = Ret (exec.ExitStatus st =? 0).
Proof. unfold pingHost. now intros ->. Qed.

(** A probe that ran and failed (timeout, destination unreachable, no
    permission to open the socket: a non-zero exit status) is unreachable. *)
Lemma pingHost_failed_probe (Run : list string -> option exec.ProcessState)
      (goos : GOOS) (host : string) (st : exec.ProcessState) :
  Run (ping_argv goos host) = Some st -> exec.ExitStatus st <> 0 ->
  pingHost Run goos host = Ret false.
Proof.
  intros HR Hst. rewrite (pingHost_started _ _ _ _ HR).
  now apply Z.eqb_neq in Hst as ->.
Qed.

(** C4 at a probe tool that is missing: [cmd.Run()] fails before a process
    exists, [cmd.ProcessState] stays nil, and [pingHost] panics on it instead
    of returning false. *)
Theorem pingHost_panics_without_process (goos : GOOS) (host : string) :
  pingHost (fun _ => None) goos host = Panic.
Proof. reflexivity. Qed.

(** ** [resolveHostname] *)

Lemma strip_trailing_dot_last (name : string) :
  forall k, String.length name = S k ->
  exists c,
    String.get k name = Some c
    /\ strip_trailing_dot name =
       if Ascii.eqb c "."%char then String.substring 0 k name else name.
Proof.
  induction name as [|a rest IH]; intros k Hlen; [discriminate|].
  destruct rest as [|b rest'].
  - injection Hlen as <-. exists a. simpl. split; trivial.
  - injection Hlen as Hlen. destruct k as [|k]; [discriminate|].
    destruct (IH k Hlen) as (c & Hget & Hstrip).
    exists c. split; [exact Hget|].
    change (strip_trailing_dot (String a (String b rest')))
      with (String a (strip_trailing_dot (String b rest'))).
    rewrite Hstrip. now destruct (Ascii.eqb c ".").
Qed.

(** On an empty first name the index [len(hostname)-1] is out of range. *)
Lemma resolveHostname_empty_name (ip : string) :
  resolveHostname (fun _ => ([EmptyString], None)) ip = Panic.
Proof. reflexivity. Qed.

(** C5: on every result of the lookup [resolveHostname] returns, and what
    it returns is what the specification says: no name on a failure or an
    empty result set, otherwise the first name without its trailing dot. *)
Theorem resolveHostname_total
        (LookupAddr : string -> list string * option string) (ip : string) :
  validated (LookupAddr ip) ->
  resolveHostname LookupAddr ip = Ret (resolve_spec (LookupAddr ip)).
Proof.
  unfold resolveHostname, resolve_spec, validated.
  destruct (LookupAddr ip) as [names [e|]]; simpl.
  - intros _. now destruct names.
  - destruct names as [|hostname names]; trivial.
    intros Hne. apply Forall_inv in Hne.
    destruct (String.length hostname) as [|k] eqn:Hlen.
    + destruct hostname; [contradiction|discriminate].
    + destruct (strip_trailing_dot_last hostname k Hlen) as (c & -> & ->).
      now destruct (Ascii.eqb c ".").
Qed.

Lemma resolveHostname_total_witness :
  resolveHostname (fun _ => (["gateway.lan."; "gw."]%string, None)) "192.168.1.1"
  = Ret "gateway.lan"%string.
Proof.
  apply (resolveHostname_total
           (fun _ => (["gateway.lan."; "gw."]%string, None)) "192.168.1.1").
  unfold validated; simpl. repeat constructor; discriminate.
Defined.

(** ** [incrementIP] adds one to the 32-bit value of the address *)

Lemma addr_value_4 (a b c d : Z) :
  addr_value [a; b; c; d] = ((a * 256 + b) * 256 + c) * 256 + d.
Proof. unfold addr_value; simpl. ring. Qed.

Lemma addr_value_range (ip : net.IP) : ipv4 ip -> 0 <= addr_value ip < 2 ^ 32.
Proof.
  intros Hip.
  destruct (ipv4_inv _ Hip) as (a & b & c & d & -> & Ha & Hb & Hc & Hd).
  rewrite addr_value_4. unfold is_byte in *.
  change (2 ^ 32) with 4294967296. lia.
Qed.

Lemma addr_value_injective (ip ip' : net.IP) :
  ipv4 ip -> ipv4 ip' -> addr_value ip = addr_value ip' -> ip = ip'.
Proof.
  intros Hip Hip'.
  destruct (ipv4_inv _ Hip) as (a & b & c & d & -> & Ha & Hb & Hc & Hd).
  destruct (ipv4_inv _ Hip') as (a' & b' & c' & d' & -> & Ha' & Hb' & Hc' & Hd').
  rewrite !addr_value_4. unfold is_byte in *. intros H.
  assert (d = d') by lia. assert (c = c') by lia.
  assert (b = b') by lia. assert (a = a') by lia.
  now subst.
Qed.

Lemma incrementIP_value (ip : net.IP) :
  ipv4 ip -> addr_value (incrementIP ip) = (addr_value ip + 1) mod 2 ^ 32.
Proof.
  intros Hip.
  destruct (ipv4_inv _ Hip) as (a & b & c & d & -> & Ha & Hb & Hc & Hd).
  rewrite incrementIP_4 by assumption. unfold is_byte in *.
  change (2 ^ 32) with 4294967296.
  destruct (Z.ltb_spec d 255);
    [rewrite !addr_value_4, Z.mod_small; lia|].
  destruct (Z.ltb_spec c 255);
    [rewrite !addr_value_4, Z.mod_small; lia|].
  destruct (Z.ltb_spec b 255);
    [rewrite !addr_value_4, Z.mod_small; lia|].
  destruct (Z.ltb_spec a 255);
    [rewrite !addr_value_4, Z.mod_small; lia|].
  replace a with 255 by lia. replace b with 255 by lia.
  replace c with 255 by lia. replace d with 255 by lia.
  reflexivity.
Qed.

Lemma iter_incrementIP_ipv4 (k : nat) (ip : net.IP) :
  ipv4 ip -> ipv4 (Nat.iter k incrementIP ip).
Proof. induction k; simpl; auto using incrementIP_ipv4. Qed.

Lemma iter_incrementIP_value (k : nat) (ip : net.IP) :
  ipv4 ip ->
  addr_value (Nat.iter k incrementIP ip) = (addr_value ip + Z.of_nat k) mod 2 ^ 32.
Proof.
  intros Hip. induction k as [|k IH].
  - simpl. rewrite Z.add_0_r. symmetry. apply Z.mod_small.
    now apply addr_value_range.
  - rewrite Nat.iter_succ, incrementIP_value, IH
      by now apply iter_incrementIP_ipv4.
    rewrite Z.add_mod_idemp_l by (change (2 ^ 32) with 4294967296; lia).
    f_equal. lia.
Qed.

(** After 2^32 increments the address is back where it started. *)
Lemma iter_incrementIP_period (m : nat) (ip : net.IP) :
  ipv4 ip -> Z.of_nat m = 2 ^ 32 -> Nat.iter m incrementIP ip = ip.
Proof.
  intros Hip Hm. apply addr_value_injective; trivial.
  - now apply iter_incrementIP_ipv4.
  - rewrite iter_incrementIP_value, Hm by assumption.
    rewrite <- (Z.mul_1_l (2 ^ 32)) at 1.
    rewrite Z.mod_add by (change (2 ^ 32) with 4294967296; lia).
    apply Z.mod_small. now apply addr_value_range.
Qed.

(** The iterations of the loop, split at a point the loop has not exited
    by. *)
Lemma sweep_app (f1 f2 : nat) (n : net.IPNet) :
  forall ip, snd (sweep f1 n ip) = false ->
  sweep (f1 + f2) n ip =
  (fst (sweep f1 n ip) ++ fst (sweep f2 n (Nat.iter f1 incrementIP ip)),
   snd (sweep f2 n (Nat.iter f1 incrementIP ip))).
Proof.
  induction f1 as [|f1 IH]; intros ip Hrun.
  - simpl. now destruct (sweep f2 n ip).
  - rewrite Nat.iter_succ_r. change (S f1 + f2)%nat with (S (f1 + f2)).
    rewrite sweep_S in Hrun. rewrite !sweep_S.
    destruct (net.Contains n ip); [|discriminate].
    cbv zeta in *.
    assert (Hrec : snd (sweep f1 n (incrementIP ip)) = false)
      by (destruct (skipped ip); assumption).
    rewrite (IH _ Hrec). now destruct (skipped ip).
Qed.

Lemma mask_0_repeats_after (m : nat) :
  Z.of_nat (S m) = 2 ^ 32 -> ~ NoDup (launched (1 + (S m + 1)) net_0_0_0_0).
Proof.
  intros Hm. unfold launched.
  change (first_address net_0_0_0_0) with [0; 0; 0; 0].
  rewrite (sweep_app 1 (S m + 1)) by reflexivity.
  change (fst (sweep 1 net_0_0_0_0 [0; 0; 0; 0])) with (@nil net.IP).
  change (Nat.iter 1 incrementIP [0; 0; 0; 0]) with [0; 0; 0; 1].
  rewrite (sweep_app (S m) 1) by (apply sweep_mask_0_running; reflexivity).
  rewrite iter_incrementIP_period
    by (trivial; apply ipv4_intro; unfold is_byte; lia).
  change (fst (sweep 1 net_0_0_0_0 [0; 0; 0; 1])) with [[0; 0; 0; 1]].
  rewrite sweep_S.
  change (net.Contains net_0_0_0_0 [0; 0; 0; 1]) with true.
  change (skipped [0; 0; 0; 1]) with false.
  cbv iota zeta. cbn [fst snd app].
  intros Hnd. inversion_clear Hnd as [|? ? Hnotin _].
  apply Hnotin, in_or_app. right. now left.
Qed.

(** C7 at the range 0.0.0.0 with mask 0.0.0.0: the loop does not exit, the
    address wraps around after 2^32 iterations, and the candidate 0.0.0.1,
    launched in the second iteration, is launched again 2^32 iterations
    later. *)
Theorem enumeration_of_mask_0_repeats :
  network_range net_0_0_0_0
  /\ exists fuel, ~ NoDup (launched fuel net_0_0_0_0).
Proof.
  split; [apply network_range_intro; reflexivity|].
  exists (1 + (S (Z.to_nat (2 ^ 32 - 1)) + 1))%nat.
  apply mask_0_repeats_after.
  rewrite Nat2Z.inj_succ, Z2Nat.id; [reflexivity|discriminate].
Qed.

(** ** When the loop exits *)

Lemma visited_S (k : nat) (ip : net.IP) :
  visited (S k) ip = ip :: visited k (incrementIP ip).
Proof.
  unfold visited. simpl. f_equal.
  rewrite <- seq_shift, map_map. apply map_ext.
  intros i. apply Nat.iter_succ_r.
Qed.

(** A loop that exits has run some [k] iterations: on [k] contained
    addresses, up to the first address that is not contained. *)
Lemma sweep_exit (fuel : nat) (n : net.IPNet) :
  forall ip, snd (sweep fuel n ip) = true ->
  exists k,
    (k < fuel)%nat
    /\ (forall i, (i < k)%nat -> net.Contains n (Nat.iter i incrementIP ip) = true)
    /\ net.Contains n (Nat.iter k incrementIP ip) = false
    /\ fst (sweep fuel n ip) = filter (fun x => negb (skipped x)) (visited k ip).
Proof.
  induction fuel as [|fuel IH]; intros ip Hexit; [discriminate|].
  rewrite sweep_S in Hexit |- *.
  destruct (net.Contains n ip) eqn:HC.
  - cbv zeta in *.
    assert (Hrec : snd (sweep fuel n (incrementIP ip)) = true)
      by (destruct (skipped ip); assumption).
    destruct (IH _ Hrec) as (k & Hk & Hin & Hout & Hl).
    exists (S k). split; [lia|]. split; [|split].
    + intros [|i] Hi; [exact HC|].
      rewrite Nat.iter_succ_r. apply Hin. lia.
    + now rewrite Nat.iter_succ_r.
    + rewrite visited_S. simpl.
      destruct (skipped ip); simpl; now rewrite Hl.
  - exists 0%nat. repeat split; trivial; [lia|intros i Hi; lia].
Qed.

(** The loop exits as soon as an address is not contained. *)
Lemma sweep_exits_by (i : nat) (n : net.IPNet) :
  forall ip, net.Contains n (Nat.iter i incrementIP ip) = false ->
  snd (sweep (S i) n ip) = true.
Proof.
  induction i as [|i IH]; intros ip Hout; rewrite sweep_S.
  - simpl in Hout. now rewrite Hout.
  - rewrite Nat.iter_succ_r in Hout.
    destruct (net.Contains n ip); trivial.
    cbv zeta. specialize (IH _ Hout). now destruct (skipped ip).
Qed.

Lemma value_offsets_injective (v i j : Z) :
  0 <= i < 2 ^ 32 -> 0 <= j < 2 ^ 32 ->
  (v + i) mod 2 ^ 32 = (v + j) mod 2 ^ 32 -> i = j.
Proof.
  change (2 ^ 32) with 4294967296. intros Hi Hj H.
  Z.div_mod_to_equations. lia.
Qed.

(** An exiting loop has run fewer than 2^32 iterations. *)
Lemma exit_before_wrap (n : net.IPNet) (ip : net.IP) (k m : nat) :
  ipv4 ip -> Z.of_nat m = 2 ^ 32 ->
  (forall i, (i < k)%nat -> net.Contains n (Nat.iter i incrementIP ip) = true) ->
  net.Contains n (Nat.iter k incrementIP ip) = false ->
  (k < m)%nat.
Proof.
  intros Hip Hm Hin Hout.
  destruct (Nat.lt_ge_cases k m) as [Hlt|Hge]; trivial.
  exfalso.
  replace k with ((k - m) + m)%nat in Hout by lia.
  rewrite Nat.iter_add, (iter_incrementIP_period m) in Hout by assumption.
  rewrite Hin in Hout; [discriminate|].
  assert (0 < Z.of_nat m) by (rewrite Hm; reflexivity). lia.
Qed.

Lemma visited_NoDup (k m : nat) (ip : net.IP) :
  ipv4 ip -> Z.of_nat m = 2 ^ 32 -> (k <= m)%nat -> NoDup (visited k ip).
Proof.
  intros Hip Hm Hk. unfold visited.
  apply NoDup_map_NoDup_ForallPairs; [|apply seq_NoDup].
  intros i j Hi Hj Heq. apply in_seq in Hi, Hj.
  apply (f_equal addr_value) in Heq.
  rewrite !iter_incrementIP_value in Heq by assumption.
  apply value_offsets_injective in Heq; lia.
Qed.

Lemma first_address_ipv4 (n : net.IPNet) : wf_net n -> ipv4 (first_address n).
Proof.
  intros [Hip Hm]. rewrite first_address_Mask. now apply Mask_ipv4.
Qed.

Lemma two_pow_32_nat : exists m : nat, Z.of_nat m = 2 ^ 32.
Proof. exists (Z.to_nat (2 ^ 32)). apply Z2Nat.id. discriminate. Qed.

(** An enumeration that ends has produced no address twice. *)
Lemma enumerate_NoDup (n : net.IPNet) (fuel : nat) (cands : list net.IP) :
  wf_net n -> enumerate fuel n = Some cands -> NoDup cands.
Proof.
  intros Hwf. unfold enumerate.
  destruct (snd (sweep fuel n (first_address n))) eqn:Hexit; [|discriminate].
  intros H; injection H as <-.
  destruct (sweep_exit _ _ _ Hexit) as (k & _ & Hin & Hout & ->).
  destruct two_pow_32_nat as [m Hm].
  assert (Hip := first_address_ipv4 n Hwf).
  assert (Hk := exit_before_wrap n _ k m Hip Hm Hin Hout).
  apply NoDup_filter, (visited_NoDup k m); trivial. lia.
Qed.

Section DistinctAddresses.

Variable prober : string -> bool.
Variable resolver : string -> string.

Lemma found_addresses (cands : list net.IP) :
  map IP (found prober resolver cands)
  = filter (fun c => prober (net.String c)) cands.
Proof.
  induction cands as [|c cands IH]; simpl; trivial.
  rewrite map_app, IH. unfold worker.
  now destruct (prober (net.String c)).
Qed.

(** No two devices of a returned slice have the same address. *)
Lemma scan_result_addresses_distinct (ipnet : net.IPNet) (devices : list Device) :
  wf_net ipnet ->
  scanSubnet_returns prober resolver ipnet devices ->
  NoDup (map IP devices).
Proof.
  intros Hwf H.
  apply scanSubnet_returns_inv in H. destruct H as (fuel & cands & He & Hp & _).
  apply (Permutation_NoDup (Permutation_map IP Hp)).
  rewrite found_addresses.
  apply NoDup_filter. eapply enumerate_NoDup; eassumption.
Qed.

End DistinctAddresses.

(** ** Which enumerations end *)

(** With a mask byte that is not zero, some address is outside the range:
    the network address with that byte replaced by 0 or by 255. *)
Lemma byte_outside (a m : Z) :
  is_byte m -> m <> 0 ->
  exists x, is_byte x /\ Z.land x m <> Z.land a m.
Proof.
  intros Hm Hnz.
  destruct (Z.eq_dec (Z.land a m) 0) as [E|E].
  - exists 255. split; [unfold is_byte; lia|].
    rewrite E, Z.land_comm, land_255; assumption.
  - exists 0. split; [unfold is_byte; lia|].
    rewrite Z.land_0_l. congruence.
Qed.

Lemma address_outside (n : net.IPNet) :
  wf_net n -> net.IPNet_Mask n <> [0; 0; 0; 0] ->
  exists x, ipv4 x /\ net.Contains n x = false.
Proof.
  destruct n as [nn m]. unfold wf_net; simpl. intros [Hip Hmask] Hnz.
  destruct (ipv4_inv _ Hip) as (a & b & c & d & -> & Ha & Hb & Hc & Hd).
  destruct (ipv4_inv _ Hmask) as (ma & mb & mc & md & -> & Hma & Hmb & Hmc & Hmd).
  assert (Hcase : ma <> 0 \/ mb <> 0 \/ mc <> 0 \/ md <> 0).
  { destruct (Z.eq_dec ma 0), (Z.eq_dec mb 0), (Z.eq_dec mc 0), (Z.eq_dec md 0);
      subst; tauto. }
  assert (Hfalse : forall x y z w,
             Z.land x ma <> Z.land a ma \/ Z.land y mb <> Z.land b mb
             \/ Z.land z mc <> Z.land c mc \/ Z.land w md <> Z.land d md ->
             net.Contains {| net.IPNet_IP := [a; b; c; d];
                             net.IPNet_Mask := [ma; mb; mc; md] |} [x; y; z; w]
             = false).
  { intros x y z w Hne. apply not_true_is_false. intros HC.
    apply Contains_iff_Mask in HC; trivial.
    unfold net.Mask in HC; simpl in HC. injection HC as E1 E2 E3 E4. tauto. }
  destruct Hcase as [H|[H|[H|H]]].
  - destruct (byte_outside a ma Hma H) as (x & Hx & Hne).
    exists [x; b; c; d]. split; [now apply ipv4_intro|]. apply Hfalse. tauto.
  - destruct (byte_outside b mb Hmb H) as (x & Hx & Hne).
    exists [a; x; c; d]. split; [now apply ipv4_intro|]. apply Hfalse. tauto.
  - destruct (byte_outside c mc Hmc H) as (x & Hx & Hne).
    exists [a; b; x; d]. split; [now apply ipv4_intro|]. apply Hfalse. tauto.
  - destruct (byte_outside d md Hmd H) as (x & Hx & Hne).
    exists [a; b; c; x]. split; [now apply ipv4_intro|]. apply Hfalse. tauto.
Qed.

(** The increments from any address reach every address. *)
Lemma iter_incrementIP_reaches (ip x : net.IP) :
  ipv4 ip -> ipv4 x -> exists i, Nat.iter i incrementIP ip = x.
Proof.
  intros Hip Hx.
  exists (Z.to_nat ((addr_value x - addr_value ip) mod 2 ^ 32)).
  apply addr_value_injective; [now apply iter_incrementIP_ipv4|assumption|].
  rewrite iter_incrementIP_value by assumption.
  rewrite Z2Nat.id by (apply Z.mod_pos_bound; reflexivity).
  rewrite Z.add_mod_idemp_r by discriminate.
  replace (addr_value ip + (addr_value x - addr_value ip)) with (addr_value x) by ring.
  apply Z.mod_small. now apply addr_value_range.
Qed.

(** With a mask that is not 0.0.0.0 the loop exits: the enumeration ends
    and has a result. *)
Lemma enumeration_ends (n : net.IPNet) :
  wf_net n -> net.IPNet_Mask n <> [0; 0; 0; 0] ->
  exists fuel cands, enumerate fuel n = Some cands.
Proof.
  intros Hwf Hnz.
  destruct (address_outside n Hwf Hnz) as (x & Hx & Hout).
  destruct (iter_incrementIP_reaches _ x (first_address_ipv4 n Hwf) Hx) as [i Hi].
  rewrite <- Hi in Hout. apply sweep_exits_by in Hout.
  exists (S i), (fst (sweep (S i) n (first_address n))).
  unfold enumerate. now rewrite Hout.
Qed.

(** With the mask 0.0.0.0 it does not. *)
Lemma enumeration_runs_on (n : net.IPNet) (fuel : nat) :
  wf_net n -> net.IPNet_Mask n = [0; 0; 0; 0] -> enumerate fuel n = None.
Proof.
  intros Hwf Hz. unfold enumerate.
  destruct (snd (sweep fuel n (first_address n))) eqn:Hexit; trivial.
  exfalso.
  destruct (sweep_exit _ _ _ Hexit) as (k & _ & _ & Hout & _).
  assert (Hip := iter_incrementIP_ipv4 k _ (first_address_ipv4 n Hwf)).
  destruct (ipv4_inv _ Hip) as (x & y & z & w & E & _).
  rewrite E in Hout.
  destruct n as [nn m]. simpl in Hz. subst m.
  destruct Hwf as [Hnn _]. simpl in Hnn.
  destruct (ipv4_inv _ Hnn) as (a & b & c & d & -> & _).
  unfold net.Contains in Hout; simpl in Hout.
  rewrite !Z.land_0_r in Hout. discriminate.
Qed.

(** * Further properties of the code *)

(** ** [incrementIP] *)

(** X1: on a 4-byte address [incrementIP] is the successor of the 32-bit
    big-endian value, wrapping at 2^32, and leaves a 4-byte address. *)
Theorem incrementIP_adds_one (ip : net.IP) :
  ipv4 ip ->
  ipv4 (incrementIP ip)
  /\ addr_value (incrementIP ip) = (addr_value ip + 1) mod 2 ^ 32.
Proof.
  intros Hip. split; [now apply incrementIP_ipv4|now apply incrementIP_value].
Qed.

Lemma incrementIP_adds_one_witness :
  ipv4 (incrementIP [10; 0; 255; 255])
  /\ addr_value (incrementIP [10; 0; 255; 255])
     = (addr_value [10; 0; 255; 255] + 1) mod 2 ^ 32.
Proof.
  apply (incrementIP_adds_one [10; 0; 255; 255]).
  apply ipv4_intro; unfold is_byte; lia.
Defined.

(** X2: two different 4-byte addresses have different successors, and no
    4-byte address is its own successor. *)
Theorem incrementIP_injective (x y : net.IP) :
  ipv4 x -> ipv4 y ->
  (incrementIP x = incrementIP y -> x = y) /\ incrementIP x <> x.
Proof.
  intros Hx Hy.
  assert (Rx := addr_value_range x Hx). assert (Ry := addr_value_range y Hy).
  change (2 ^ 32) with 4294967296 in *.
  split.
  - intros H. apply (f_equal addr_value) in H.
    rewrite !incrementIP_value in H by assumption.
    apply addr_value_injective; trivial.
    change (2 ^ 32) with 4294967296 in H.
    Z.div_mod_to_equations. lia.
  - intros H. apply (f_equal addr_value) in H.
    rewrite incrementIP_value in H by assumption.
    change (2 ^ 32) with 4294967296 in H.
    Z.div_mod_to_equations. lia.
Qed.

Lemma incrementIP_injective_witness :
  (incrementIP [10; 0; 0; 255] = incrementIP [10; 0; 0; 255] ->
   [10; 0; 0; 255] = [10; 0; 0; 255])
  /\ incrementIP [10; 0; 0; 255] <> [10; 0; 0; 255].
Proof.
  apply (incrementIP_injective [10; 0; 0; 255] [10; 0; 0; 255]);
    apply ipv4_intro; unfold is_byte; lia.
Defined.

Lemma incr_from_last_all_255 (k : nat) :
  incr_from_last (repeat 255 k) = repeat 0 k.
Proof. induction k as [|k IH]; simpl; [reflexivity|now rewrite IH]. Qed.

(** X3: on a slice of any length [incrementIP] keeps the length, and it
    turns the slice of [k] bytes 255 into the slice of [k] bytes 0: the
    carry runs off the first byte without an error (the empty slice stays
    empty). *)
Theorem incrementIP_any_length :
  (forall ip, List.length (incrementIP ip) = List.length ip)
  /\ (forall k, incrementIP (repeat 255 k) = repeat 0 k).
Proof.
  split; [exact incrementIP_length|].
  intros k. unfold incrementIP.
  now rewrite rev_repeat, incr_from_last_all_255, rev_repeat.
Qed.

(** ** Which enumerations end, and in what order they launch *)

(** X4: for a network with 4-byte address and mask, the loop of
    [scanSubnet] exits exactly when the mask is not 0.0.0.0. *)
Theorem enumeration_ends_iff_mask_nonzero (n : net.IPNet) :
  wf_net n ->
  (exists fuel cands, enumerate fuel n = Some cands)
  <-> net.IPNet_Mask n <> [0; 0; 0; 0].
Proof.
  intros Hwf. split.
  - intros (fuel & cands & He) Hz.
    rewrite (enumeration_runs_on n fuel Hwf Hz) in He. discriminate.
  - now apply enumeration_ends.
Qed.

Lemma enumeration_ends_iff_mask_nonzero_witness :
  (exists fuel cands, enumerate fuel net_192_168_1_128 = Some cands)
  <-> net.IPNet_Mask net_192_168_1_128 <> [0; 0; 0; 0].
Proof.
  apply (enumeration_ends_iff_mask_nonzero net_192_168_1_128).
  refine (proj1 (network_range_intro _ _ _ _ _ _)); reflexivity.
Defined.

Lemma visited_In (k : nat) (ip x : net.IP) :
  In x (visited k ip) <-> exists i, (i < k)%nat /\ Nat.iter i incrementIP ip = x.
Proof.
  unfold visited. rewrite in_map_iff. split.
  - intros (i & Hi & Hin). apply in_seq in Hin. exists i. split; [lia|assumption].
  - intros (i & Hi & Hx). exists i. split; [assumption|apply in_seq; lia].
Qed.

Lemma StronglySorted_filter (A : Type) (R : A -> A -> Prop) (f : A -> bool)
      (l : list A) :
  StronglySorted R l -> StronglySorted R (filter f l).
Proof.
  induction 1 as [|a l Hs IH Hall]; simpl; [constructor|].
  destruct (f a); trivial. constructor; trivial.
  rewrite Forall_forall in *. intros x Hx. apply filter_In in Hx. now apply Hall.
Qed.

(** The addresses of [k] iterations ascend when the value does not wrap. *)
Lemma visited_ascending (k : nat) :
  forall ip, ipv4 ip -> addr_value ip + Z.of_nat k <= 2 ^ 32 ->
  StronglySorted (fun x y => addr_value x < addr_value y) (visited k ip).
Proof.
  induction k as [|k IH]; intros ip Hip Hk; [constructor|].
  rewrite visited_S.
  destruct k as [|k]; [repeat constructor|].
  assert (Hr := addr_value_range ip Hip).
  assert (Hnext : addr_value (incrementIP ip) = addr_value ip + 1).
  { rewrite incrementIP_value by assumption. apply Z.mod_small. lia. }
  constructor.
  - apply IH; [now apply incrementIP_ipv4|lia].
  - apply Forall_forall. intros x Hx.
    apply visited_In in Hx. destruct Hx as (i & Hi & <-).
    rewrite iter_incrementIP_value by now apply incrementIP_ipv4.
    rewrite Hnext, Z.mod_small; lia.
Qed.

(** A loop that exits has not wrapped around. *)
Lemma exit_without_wrap (n : net.IPNet) (k : nat) :
  wf_net n ->
  (forall i, (i < k)%nat ->
             net.Contains n (Nat.iter i incrementIP (first_address n)) = true) ->
  net.Contains n (Nat.iter k incrementIP (first_address n)) = false ->
  addr_value (first_address n) + Z.of_nat k <= 2 ^ 32.
Proof.
  intros Hwf Hin Hout.
  assert (Hip := first_address_ipv4 n Hwf).
  assert (Hr := addr_value_range _ Hip).
  destruct two_pow_32_nat as [m Hm].
  assert (Hk := exit_before_wrap n _ k m Hip Hm Hin Hout).
  destruct (Z.le_gt_cases (addr_value (first_address n) + Z.of_nat k) (2 ^ 32))
    as [Hle|Hgt]; trivial.
  exfalso.
  destruct (Z_of_nat_complete (2 ^ 32 - addr_value (first_address n)))
    as [i0 Hi0]; [lia|].
  assert (Hi0k : (i0 < k)%nat) by lia.
  assert (Hzero : Nat.iter i0 incrementIP (first_address n) = [0; 0; 0; 0]).
  { apply addr_value_injective.
    - now apply iter_incrementIP_ipv4.
    - apply ipv4_intro; unfold is_byte; lia.
    - rewrite iter_incrementIP_value by assumption.
      rewrite <- Hi0.
      replace (addr_value (first_address n) + (2 ^ 32 - addr_value (first_address n)))
        with (2 ^ 32) by ring.
      reflexivity. }
  specialize (Hin i0 Hi0k). rewrite Hzero in Hin.
  apply Contains_Mask in Hin.
  destruct Hwf as [_ Hmask].
  destruct (ipv4_inv _ Hmask) as (ma & mb & mc & md & Em & _).
  rewrite Em in Hin. unfold net.Mask in Hin; simpl in Hin.
  rewrite <- Hin in Hi0. change (addr_value [0; 0; 0; 0]) with 0 in Hi0. lia.
Qed.

(** X5: when the enumeration ends, its candidates are in strictly ascending
    order of the 32-bit value of the address: the goroutines are launched
    from the lowest address up. *)
Theorem candidates_ascending (n : net.IPNet) (fuel : nat) (cands : list net.IP) :
  wf_net n ->
  enumerate fuel n = Some cands ->
  StronglySorted (fun x y => addr_value x < addr_value y) cands.
Proof.
  intros Hwf. unfold enumerate.
  destruct (snd (sweep fuel n (first_address n))) eqn:Hexit; [|discriminate].
  intros H; injection H as <-.
  destruct (sweep_exit _ _ _ Hexit) as (k & _ & Hin & Hout & ->).
  apply StronglySorted_filter, visited_ascending.
  - now apply first_address_ipv4.
  - now apply exit_without_wrap.
Qed.

Lemma candidates_ascending_witness :
  StronglySorted (fun x y => addr_value x < addr_value y)
                 [[192; 168; 1; 128]; [192; 168; 1; 129]].
Proof.
  apply (candidates_ascending
           {| net.IPNet_IP := [192; 168; 1; 129];
              net.IPNet_Mask := [255; 255; 255; 254] |} 3).
  - split; apply ipv4_intro; unfold is_byte; lia.
  - reflexivity.
Defined.

(** ** Masks of leading ones: the range is an interval of addresses *)

Lemma testbit_bytes (h l i : Z) :
  0 <= l < 256 -> 0 <= i ->
  Z.testbit (h * 256 + l) i = if i <? 8 then Z.testbit l i else Z.testbit h (i - 8).
Proof.
  intros Hl Hi. destruct (Z.ltb_spec i 8).
  - rewrite <- (Z.mod_pow2_bits_low (h * 256 + l) 8 i) by lia.
    change (2 ^ 8) with 256.
    rewrite Z.add_comm, Z.mod_add by lia. now rewrite Z.mod_small.
  - replace i with ((i - 8) + 8) at 1 by lia.
    rewrite <- Z.div_pow2_bits by lia. change (2 ^ 8) with 256.
    rewrite Z.add_comm, Z.div_add by lia. rewrite Z.div_small by lia. reflexivity.
Qed.

Lemma land_bytes (x1 x0 m1 m0 : Z) :
  is_byte x0 -> is_byte m0 ->
  Z.land (x1 * 256 + x0) (m1 * 256 + m0) = Z.land x1 m1 * 256 + Z.land x0 m0.
Proof.
  intros Hx Hm.
  assert (Hl := land_byte x0 m0 Hx Hm). unfold is_byte in *.
  apply Z.bits_inj'. intros i Hi.
  rewrite Z.land_spec, !testbit_bytes by assumption.
  destruct (i <? 8); now rewrite Z.land_spec.
Qed.

(** The value of a masked address is the AND of the values. *)
Lemma addr_value_Mask (ip m : list Z) :
  ipv4 ip -> ipv4 m ->
  addr_value (net.Mask ip m) = Z.land (addr_value ip) (addr_value m).
Proof.
  intros Hip Hm.
  destruct (ipv4_inv _ Hip) as (a & b & c & d & -> & Ha & Hb & Hc & Hd).
  destruct (ipv4_inv _ Hm) as (ma & mb & mc & md & -> & Hma & Hmb & Hmc & Hmd).
  unfold net.Mask; simpl. rewrite !addr_value_4.
  now rewrite !land_bytes by assumption.
Qed.

Lemma land_leading_ones (h y : Z) :
  0 <= h <= 32 -> 0 <= y < 2 ^ 32 ->
  Z.land y (2 ^ 32 - 2 ^ h) = y - y mod 2 ^ h.
Proof.
  intros Hh Hy.
  assert (E1 : 2 ^ 32 - 2 ^ h = Z.shiftl (Z.ones (32 - h)) h).
  { rewrite Z.shiftl_mul_pow2, Z.ones_equiv by lia.
    replace (2 ^ 32) with (2 ^ (32 - h) * 2 ^ h)
      by (rewrite <- Z.pow_add_r by lia; f_equal; lia).
    unfold Z.pred. ring. }
  assert (E2 : y - y mod 2 ^ h = Z.shiftl (Z.shiftr y h) h).
  { rewrite Z.shiftl_mul_pow2, Z.shiftr_div_pow2 by lia.
    assert (0 < 2 ^ h) by (apply Z.pow_pos_nonneg; lia).
    rewrite (Z.div_mod y (2 ^ h)) at 1 by lia. lia. }
  rewrite E1, E2. apply Z.bits_inj'. intros i Hi.
  rewrite Z.land_spec, !Z.shiftl_spec by lia.
  destruct (Z.ltb_spec i h).
  - rewrite !(Z.testbit_neg_r _ (i - h)) by lia. apply andb_false_r.
  - rewrite Z.shiftr_spec by lia. replace (i - h + h) with i by lia.
    destruct (Z.ltb_spec i 32).
    + rewrite Z.ones_spec_low by lia. apply andb_true_r.
    + rewrite Z.ones_spec_high by lia. rewrite andb_false_r.
      symmetry. apply Z.bits_above_log2; [lia|].
      destruct (Z.eq_dec y 0) as [->|]; [simpl; lia|].
      apply Z.log2_lt_pow2; [lia|].
      assert (2 ^ 32 <= 2 ^ i) by (apply Z.pow_le_mono_r; lia). lia.
Qed.

Lemma block_interval (P B v : Z) :
  0 < P -> B mod P = 0 -> (v - v mod P = B <-> B <= v < B + P).
Proof.
  intros HP HB.
  assert (Hr := Z.mod_pos_bound v P HP).
  assert (Hv' := Z.div_mod v P ltac:(lia)).
  assert (HB' := Z.div_mod B P ltac:(lia)). rewrite HB in HB'.
  revert Hr Hv' HB'.
  generalize (v mod P) (v / P) (B / P). intros r q qb Hr Hvq HBq.
  split; intros H.
  - lia.
  - assert (q = qb) by nia. subst. lia.
Qed.

(** A loop whose first [k] addresses are contained and whose next address
    is not runs exactly [k] iterations. *)
Lemma sweep_run (k : nat) (n : net.IPNet) :
  forall ip,
  (forall i, (i < k)%nat -> net.Contains n (Nat.iter i incrementIP ip) = true) ->
  net.Contains n (Nat.iter k incrementIP ip) = false ->
  sweep (S k) n ip = (filter (fun x => negb (skipped x)) (visited k ip), true).
Proof.
  induction k as [|k IH]; intros ip Hin Hout; rewrite sweep_S.
  - simpl in Hout. now rewrite Hout.
  - assert (H0 := Hin 0%nat ltac:(lia)). simpl in H0. rewrite H0. cbv zeta.
    rewrite IH.
    + rewrite visited_S. simpl. now destruct (skipped ip).
    + intros i Hi. rewrite <- Nat.iter_succ_r. apply Hin. lia.
    + now rewrite <- Nat.iter_succ_r.
Qed.

Section LeadingOnes.

Variable n : net.IPNet.
Variable h : Z.
Hypothesis Hwf : wf_net n.
Hypothesis Hh : 0 <= h < 32.
Hypothesis Hmask : host_bits (net.IPNet_Mask n) h.

Lemma base_block :
  addr_value (first_address n) mod 2 ^ h = 0
  /\ addr_value (first_address n) + 2 ^ h <= 2 ^ 32.
Proof.
  assert (HP : 0 < 2 ^ h) by (apply Z.pow_pos_nonneg; lia).
  assert (Hnn := addr_value_range _ (proj1 Hwf)).
  assert (E : addr_value (first_address n)
              = 2 ^ h * (addr_value (net.IPNet_IP n) / 2 ^ h)).
  { rewrite first_address_Mask, addr_value_Mask by apply Hwf.
    rewrite Hmask, land_leading_ones by lia.
    rewrite (Z.div_mod (addr_value (net.IPNet_IP n)) (2 ^ h)) at 1 by lia. lia. }
  split.
  - rewrite E, Z.mul_comm. apply Z.mod_mul. lia.
  - assert (Hr := addr_value_range _ (first_address_ipv4 n Hwf)).
    assert (E32 : 2 ^ 32 = 2 ^ h * 2 ^ (32 - h))
      by (rewrite <- Z.pow_add_r by lia; f_equal; lia).
    rewrite E in *. rewrite E32 in *.
    revert Hr. generalize (addr_value (net.IPNet_IP n) / 2 ^ h).
    generalize (2 ^ (32 - h)). intros Q q Hr.
    assert (q < Q) by nia. nia.
Qed.

(** The range is the interval of [2^h] addresses from the base. *)
Lemma Contains_interval (x : net.IP) :
  ipv4 x ->
  net.Contains n x = true <->
  addr_value (first_address n) <= addr_value x
                               < addr_value (first_address n) + 2 ^ h.
Proof.
  intros Hx.
  assert (HP : 0 < 2 ^ h) by (apply Z.pow_pos_nonneg; lia).
  destruct base_block as [Hmod _].
  rewrite <- (block_interval _ _ _ HP Hmod).
  rewrite <- land_leading_ones by (try apply addr_value_range; trivial; lia).
  rewrite <- Hmask, <- addr_value_Mask by (trivial; apply Hwf).
  rewrite Contains_iff_Mask by (try apply Hx; apply Hwf).
  rewrite <- first_address_Mask. split; [now intros ->|].
  apply addr_value_injective; [|now apply first_address_ipv4].
  apply Mask_ipv4; [assumption|apply Hwf].
Qed.

Lemma iter_in_block (i : nat) :
  Z.of_nat i < 2 ^ h ->
  addr_value (Nat.iter i incrementIP (first_address n))
  = addr_value (first_address n) + Z.of_nat i.
Proof.
  intros Hi. destruct base_block as [_ Hle].
  assert (Hr := addr_value_range _ (first_address_ipv4 n Hwf)).
  rewrite iter_incrementIP_value by now apply first_address_ipv4.
  apply Z.mod_small. lia.
Qed.

Lemma sweep_leading_ones (k : nat) :
  Z.of_nat k = 2 ^ h ->
  sweep (S k) n (first_address n)
  = (filter (fun x => negb (skipped x)) (visited k (first_address n)), true).
Proof.
  intros Hk.
  assert (Hip := first_address_ipv4 n Hwf).
  assert (Hr := addr_value_range _ Hip).
  destruct base_block as [_ Hle].
  apply sweep_run.
  - intros i Hi. apply Contains_interval; [now apply iter_incrementIP_ipv4|].
    rewrite iter_in_block by lia. lia.
  - apply not_true_is_false. intros HC.
    apply Contains_interval in HC; [|now apply iter_incrementIP_ipv4].
    rewrite iter_incrementIP_value, Hk in HC by assumption.
    assert (H32 : 2 ^ h < 2 ^ 32) by (apply Z.pow_lt_mono_r; lia).
    destruct (Z.eq_dec (addr_value (first_address n) + 2 ^ h) (2 ^ 32)) as [E|E].
    + rewrite E, Z.mod_same in HC by lia. lia.
    + rewrite Z.mod_small in HC by lia. lia.
Qed.

End LeadingOnes.

(** X6: for a mask of leading ones with [h] host bits ([h] < 32) the loop
    runs exactly [2^h] iterations and exits, and the candidates are exactly
    the addresses of the range whose final octet is neither 0 nor 255: no
    other host of the range is left out. *)
Theorem leading_ones_mask_candidates (n : net.IPNet) (h : Z) :
  wf_net n -> 0 <= h < 32 -> host_bits (net.IPNet_Mask n) h ->
  exists k cands,
    Z.of_nat k = 2 ^ h
    /\ enumerate (S k) n = Some cands
    /\ enumerate k n = None
    /\ forall x, In x cands <->
                 ipv4 x /\ net.Contains n x = true
                 /\ final_octet x <> 0 /\ final_octet x <> 255.
Proof.
  intros Hwf Hh Hmask.
  assert (HP : 0 < 2 ^ h) by (apply Z.pow_pos_nonneg; lia).
  destruct (Z_of_nat_complete (2 ^ h)) as [k Hk]; [lia|]. symmetry in Hk.
  assert (Hip := first_address_ipv4 n Hwf).
  assert (Hsweep := sweep_leading_ones n h Hwf Hh Hmask k Hk).
  exists k, (filter (fun x => negb (skipped x)) (visited k (first_address n))).
  split; [exact Hk|]. split; [|split].
  - unfold enumerate. now rewrite Hsweep.
  - unfold enumerate.
    destruct (snd (sweep k n (first_address n))) eqn:Hexit; trivial.
    exfalso. rewrite (sweep_enough _ _ _ Hexit (S k)) in Hsweep by lia.
    destruct (sweep_exit _ _ _ Hexit) as (k' & Hk' & _ & Hout & _).
    apply not_true_iff_false in Hout. apply Hout.
    apply (Contains_interval n h Hwf Hh Hmask);
      [now apply iter_incrementIP_ipv4|].
    rewrite (iter_in_block n h Hwf Hh Hmask) by lia. lia.
  - intros x. rewrite filter_In, visited_In, negb_true_iff.
    unfold skipped. rewrite orb_false_iff, !Z.eqb_neq. split.
    + intros ((i & Hi & <-) & Hoct).
      assert (Hx := iter_incrementIP_ipv4 i _ Hip).
      split; [exact Hx|]. split; [|exact Hoct].
      apply (Contains_interval n h Hwf Hh Hmask _ Hx).
      rewrite (iter_in_block n h Hwf Hh Hmask) by lia. lia.
    + intros (Hx & HC & Hoct). split; [|exact Hoct].
      apply (Contains_interval n h Hwf Hh Hmask _ Hx) in HC.
      destruct (Z_of_nat_complete (addr_value x - addr_value (first_address n)))
        as [i Hi]; [lia|].
      exists i. split; [lia|].
      apply addr_value_injective; [now apply iter_incrementIP_ipv4|assumption|].
      rewrite (iter_in_block n h Hwf Hh Hmask) by lia. lia.
Qed.

Lemma leading_ones_mask_candidates_witness :
  exists k cands,
    Z.of_nat k = 2 ^ 7
    /\ enumerate (S k) net_192_168_1_128 = Some cands
    /\ enumerate k net_192_168_1_128 = None
    /\ forall x, In x cands <->
                 ipv4 x /\ net.Contains net_192_168_1_128 x = true
                 /\ final_octet x <> 0 /\ final_octet x <> 255.
Proof.
  apply (leading_ones_mask_candidates net_192_168_1_128 7).
  - refine (proj1 (network_range_intro _ _ _ _ _ _)); reflexivity.
  - lia.
  - reflexivity.
Defined.

(** ** What a sweep returns *)

Lemma sweep_ipv4 (fuel : nat) (n : net.IPNet) :
  forall ip c, ipv4 ip -> In c (fst (sweep fuel n ip)) -> ipv4 c.
Proof.
  induction fuel as [|fuel IH]; intros ip c Hip; simpl; [tauto|].
  destruct (net.Contains n ip); simpl; [|tauto].
  assert (Hnext := incrementIP_ipv4 ip Hip).
  destruct (skipped ip); simpl; [now apply IH|].
  intros [<-|Hin]; [assumption|now apply (IH (incrementIP ip))].
Qed.

Lemma launched_ipv4 (fuel : nat) (n : net.IPNet) (c : net.IP) :
  wf_net n -> In c (launched fuel n) -> ipv4 c.
Proof.
  intros Hwf. apply sweep_ipv4. now apply first_address_ipv4.
Qed.

Section ReturnedSlice.

Variable prober : string -> bool.

Lemma found_reachable (resolver : string -> string) (cands : list net.IP) :
  found prober resolver cands
  = map (device_of resolver) (filter (fun c => prober (net.String c)) cands).
Proof.
  induction cands as [|c cands IH]; simpl; trivial.
  rewrite IH. unfold worker, device_of.
  now destruct (prober (net.String c)).
Qed.

Lemma found_resolver_ext (r1 r2 : string -> string) (cands : list net.IP) :
  (forall c, In c cands -> prober (net.String c) = true ->
             r1 (net.String c) = r2 (net.String c)) ->
  found prober r1 cands = found prober r2 cands.
Proof.
  intros Hagree. rewrite !found_reachable. apply map_ext_in.
  intros c Hc. apply filter_In in Hc. destruct Hc as [Hin Hp].
  unfold device_of. now rewrite (Hagree c Hin Hp).
Qed.

End ReturnedSlice.

(** X7: a returned slice holds one device for each candidate the prober
    reports reachable and nothing else: it is an arrangement of these
    devices, each online and with the name the resolver gives for its
    address, and no address occurs twice. *)
Theorem returned_slice_is_reachable_candidates
        (prober : string -> bool) (resolver : string -> string)
        (n : net.IPNet) (fuel : nat) (cands : list net.IP) (devices : list Device) :
  wf_net n ->
  enumerate fuel n = Some cands ->
  scanSubnet_returns prober resolver n devices ->
  Permutation
    (map (device_of resolver) (filter (fun c => prober (net.String c)) cands))
    devices
  /\ NoDup (map IP devices).
Proof.
  intros Hwf He H. split.
  - apply scanSubnet_returns_inv in H. destruct H as (f' & c' & He' & Hp & _).
    rewrite (enumerate_deterministic _ _ _ _ _ He' He) in Hp.
    now rewrite found_reachable in Hp.
  - now apply (scan_result_addresses_distinct prober resolver n).
Qed.

Lemma returned_slice_is_reachable_candidates_witness :
  Permutation
    (map (device_of fake_resolver)
         (filter (fun c => fake_prober (net.String c))
                 (map (fun y => [192; 168; 1; Z.of_nat y]) (seq 1 254))))
    expected_devices
  /\ NoDup (map IP expected_devices).
Proof.
  apply (returned_slice_is_reachable_candidates
           fake_prober fake_resolver net_192_168_1 257).
  - refine (proj1 (network_range_intro _ _ _ _ _ _)); reflexivity.
  - vm_compute. reflexivity.
  - apply (scanSubnet_run_returns _ _ 257 (fun l => l)).
    + intros l. reflexivity.
    + vm_compute. reflexivity.
Defined.

(** X8: the names the resolver would give to addresses that are not
    reachable candidates never show in the result: two resolvers that agree
    on the reachable candidates give the same returned slices. *)
Theorem names_of_unreachable_do_not_matter
        (prober : string -> bool) (r1 r2 : string -> string)
        (n : net.IPNet) (fuel : nat) (cands : list net.IP) (devices : list Device) :
  enumerate fuel n = Some cands ->
  (forall c, In c cands -> prober (net.String c) = true ->
             r1 (net.String c) = r2 (net.String c)) ->
  scanSubnet_returns prober r1 n devices <-> scanSubnet_returns prober r2 n devices.
Proof.
  intros He Hagree.
  assert (Hf := found_resolver_ext prober r1 r2 cands Hagree).
  split; intros H; apply scanSubnet_returns_inv in H;
    destruct H as (f' & c' & He' & Hp & Hs);
    rewrite (enumerate_deterministic _ _ _ _ _ He' He) in Hp;
    apply (scan_run _ _ _ _ fuel cands devices); trivial; congruence.
Qed.

Lemma names_of_unreachable_do_not_matter_witness :
  scanSubnet_returns fake_prober fake_resolver net_192_168_1 expected_devices
  <-> scanSubnet_returns fake_prober
        (fun host => if fake_prober host then fake_resolver host
                     else "not.probed"%string)
        net_192_168_1 expected_devices.
Proof.
  apply (names_of_unreachable_do_not_matter
           fake_prober fake_resolver
           (fun host => if fake_prober host then fake_resolver host
                        else "not.probed"%string)
           net_192_168_1 257
           (map (fun y => [192; 168; 1; Z.of_nat y]) (seq 1 254))).
  - vm_compute. reflexivity.
  - intros c _ Hp. now rewrite Hp.
Defined.

(** X9: with a prober that reports every address reachable, every slice
    returned for a network with mask 255.255.255.0 has exactly 254
    devices. *)
Theorem slash24_all_reachable
        (prober : string -> bool) (resolver : string -> string)
        (n : net.IPNet) (devices : list Device) :
  wf_net n ->
  net.IPNet_Mask n = [255; 255; 255; 0] ->
  (forall host, prober host = true) ->
  scanSubnet_returns prober resolver n devices ->
  List.length devices = 254%nat.
Proof.
  intros Hwf Hmask Hall H.
  destruct (slash24_inv n Hwf Hmask) as (a & b & c & d & -> & Ha & Hb & Hc & Hd).
  apply scanSubnet_returns_inv in H. destruct H as (fuel & cands & He & Hp & _).
  rewrite (enumerate_deterministic _ _ _ _ _ He (enumerate_24 a b c d Ha Hb Hc)) in Hp.
  rewrite <- (Permutation_length Hp), found_reachable, length_map.
  rewrite (filter_ext _ (fun _ => true)) by (intros x; apply Hall).
  assert (Hid : forall (l : list net.IP), filter (fun _ => true) l = l)
    by (induction l as [|x l IH]; simpl; congruence).
  rewrite Hid, row_24_explicit. now rewrite length_map, length_seq.
Qed.

Lemma slash24_all_reachable_witness :
  List.length (map (fun y => {| IP := [10; 0; 0; Z.of_nat y]; Online := true;
                                Hostname := EmptyString |}) (seq 1 254))
  = 254%nat.
Proof.
  apply (slash24_all_reachable (fun _ => true) (fun _ => EmptyString) net_10_0_0).
  - refine (proj1 (network_range_intro _ _ _ _ _ _)); reflexivity.
  - reflexivity.
  - reflexivity.
  - apply (scanSubnet_run_returns _ _ 257 (fun l => l)).
    + intros l. reflexivity.
    + vm_compute. reflexivity.
Defined.

(** X10: the comparison [scanSubnet] hands to [sort.Slice] is a strict weak
    order: irreflexive, transitive, and with a transitive incomparability
    (having the same final octet), which is what the sort needs to leave the
    slice in order. *)
Theorem less_strict_weak_order :
  (forall a, less a a = false)
  /\ (forall a b c, less a b = true -> less b c = true -> less a c = true)
  /\ (forall a b c,
        less a b = false -> less b a = false ->
        less b c = false -> less c b = false ->
        less a c = false /\ less c a = false).
Proof.
  unfold less. split; [|split].
  - intros a. apply Z.ltb_irrefl.
  - intros a b c H1 H2. apply Z.ltb_lt in H1, H2. apply Z.ltb_lt. lia.
  - intros a b c H1 H2 H3 H4. apply Z.ltb_ge in H1, H2, H3, H4.
    split; apply Z.ltb_ge; lia.
Qed.

(** ** [resolveHostname]: when it panics, and what it returns *)

Lemma last_char_split (name : string) :
  forall k c, String.length name = S k -> String.get k name = Some c ->
  name = (String.substring 0 k name ++ String c EmptyString)%string.
Proof.
  induction name as [|a rest IH]; intros k c Hlen Hget; [discriminate|].
  injection Hlen as Hlen. destruct k as [|k].
  - destruct rest; [|discriminate]. simpl in Hget. now injection Hget as ->.
  - simpl in Hget. simpl. f_equal. destruct rest as [|b rest']; [discriminate|].
    now apply IH.
Qed.

Lemma append_last_char (s1 s2 : string) (c1 c2 : ascii) :
  (s1 ++ String c1 EmptyString)%string = (s2 ++ String c2 EmptyString)%string ->
  s1 = s2 /\ c1 = c2.
Proof.
  revert s2. induction s1 as [|a s1 IH]; intros [|b s2]; simpl; intros H.
  - now injection H.
  - injection H as _ H. now destruct s2.
  - injection H as _ H. now destruct s1.
  - injection H as -> H. destruct (IH _ H) as [-> ->]. now split.
Qed.

(** X11: [resolveHostname] panics exactly when the lookup reports no error
    and its first name is the empty string (the index [len(hostname)-1] is
    then -1); the last byte of a name that is not empty is always there. *)
Theorem resolveHostname_panics_iff
        (LookupAddr : string -> list string * option string) (ip : string) :
  resolveHostname LookupAddr ip = Panic
  <-> exists rest, LookupAddr ip = (EmptyString :: rest, None).
Proof.
  unfold resolveHostname.
  destruct (LookupAddr ip) as [names [e|]].
  - split; [discriminate|intros [rest H]; discriminate].
  - destruct names as [|hostname rest].
    + split; [discriminate|intros [rest H]; discriminate].
    + destruct (String.length hostname) as [|k] eqn:Hlen.
      * destruct hostname; [|discriminate].
        split; [intros _; now exists rest|reflexivity].
      * destruct (strip_trailing_dot_last hostname k Hlen) as (c & -> & _).
        split.
        -- destruct (Ascii.eqb c "."); discriminate.
        -- intros [rest' H]. injection H as -> _. discriminate.
Qed.

(** X12: for a first name that is not empty, [resolveHostname] returns the
    name itself when it does not end in a dot, and otherwise the string [r]
    with [name = r.]: exactly one dot is taken off. *)
Theorem resolveHostname_result
        (LookupAddr : string -> list string * option string) (ip : string)
        (name : string) (rest : list string) :
  LookupAddr ip = (name :: rest, None) ->
  name <> EmptyString ->
  exists r,
    resolveHostname LookupAddr ip = Ret r
    /\ (name = (r ++ ".")%string
        \/ (r = name /\ forall s, name <> (s ++ ".")%string)).
Proof.
  intros HL Hne. unfold resolveHostname. rewrite HL.
  destruct (String.length name) as [|k] eqn:Hlen.
  - destruct name; [contradiction|discriminate].
  - destruct (strip_trailing_dot_last name k Hlen) as (c & Hget & _).
    rewrite Hget.
    assert (Hsplit := last_char_split name k c Hlen Hget).
    destruct (Ascii.eqb_spec c ".") as [->|Hc].
    + exists (String.substring 0 k name). split; [reflexivity|now left].
    + exists name. split; [reflexivity|]. right. split; [reflexivity|].
      intros s Hs. rewrite Hs in Hsplit at 1.
      apply append_last_char in Hsplit. destruct Hsplit as [_ E]. auto.
Qed.

Lemma resolveHostname_result_witness :
  exists r,
    resolveHostname (fun _ => (["blackbird.lan."]%string, None)) "192.168.86.86"
    = Ret r
    /\ ("blackbird.lan."%string = (r ++ ".")%string
        \/ (r = "blackbird.lan."%string
            /\ forall s, "blackbird.lan."%string <> (s ++ ".")%string)).
Proof.
  apply (resolveHostname_result
           (fun _ => (["blackbird.lan."]%string, None)) "192.168.86.86"
           "blackbird.lan." []).
  - reflexivity.
  - discriminate.
Defined.

(** ** [getNetworkInterfaces] *)

Lemma append_addr_acc (iface : netif.Interface) (acc : list NetworkInterface.t)
      (addr : netif.Addr) :
  append_addr iface acc addr = acc ++ append_addr iface [] addr.
Proof.
  unfold append_addr. destruct addr as [ipnet|]; [|now rewrite app_nil_r].
  destruct (netif.To4 (net.IPNet_IP ipnet)); [reflexivity|now rewrite app_nil_r].
Qed.

Lemma fold_append_addr (iface : netif.Interface) (addrs : list netif.Addr) :
  forall acc,
  fold_left (append_addr iface) addrs acc
  = acc ++ flat_map (append_addr iface []) addrs.
Proof.
  induction addrs as [|addr addrs IH]; intros acc; simpl.
  - now rewrite app_nil_r.
  - now rewrite IH, append_addr_acc, <- app_assoc.
Qed.

Lemma append_iface_acc (acc : list NetworkInterface.t) (iface : netif.Interface) :
  append_iface acc iface = acc ++ append_iface [] iface.
Proof.
  unfold append_iface. destruct (down_or_loopback iface); [now rewrite app_nil_r|].
  destruct (netif.Addrs iface) as [addrs [e|]]; [now rewrite app_nil_r|].
  now rewrite !fold_append_addr.
Qed.

Lemma fold_append_iface (ifaces : list netif.Interface) :
  forall acc,
  fold_left append_iface ifaces acc = acc ++ flat_map (append_iface []) ifaces.
Proof.
  induction ifaces as [|iface ifaces IH]; intros acc; simpl.
  - now rewrite app_nil_r.
  - now rewrite IH, append_iface_acc, <- app_assoc.
Qed.

Lemma getNetworkInterfaces_flat_map (ifaces : list netif.Interface) :
  getNetworkInterfaces (ifaces, None)
  = (flat_map (append_iface []) ifaces, None).
Proof. unfold getNetworkInterfaces. now rewrite fold_append_iface. Qed.

(** X13: when [net.Interfaces()] succeeds, [getNetworkInterfaces] succeeds,
    and its entries are exactly the networks of the interfaces that are up,
    are not loopback and whose [Addrs()] succeeded, for their addresses that
    are a [*net.IPNet] with a 4-byte form; each entry carries the name of
    its interface and the address of its network.  An interface whose
    [Addrs()] fails is passed over without an error. *)
Theorem getNetworkInterfaces_entries
        (ifaces : list netif.Interface) (entry : NetworkInterface.t) :
  snd (getNetworkInterfaces (ifaces, None)) = None
  /\ (In entry (fst (getNetworkInterfaces (ifaces, None)))
      <-> exists iface addrs ipnet,
            In iface ifaces
            /\ Z.land (netif.Flags iface) netif.FlagUp <> 0
            /\ Z.land (netif.Flags iface) netif.FlagLoopback = 0
            /\ netif.Addrs iface = (addrs, None)
            /\ In (netif.IPNetAddr ipnet) addrs
            /\ netif.To4 (net.IPNet_IP ipnet) <> None
            /\ entry = {| NetworkInterface.Name := netif.Name iface;
                          NetworkInterface.IPNet := ipnet;
                          NetworkInterface.IP := net.IPNet_IP ipnet |}).
Proof.
  rewrite getNetworkInterfaces_flat_map. split; [reflexivity|]. simpl.
  rewrite in_flat_map. split.
  - intros (iface & Hin & He). unfold append_iface, down_or_loopback in He.
    destruct (Z.eqb_spec (Z.land (netif.Flags iface) netif.FlagUp) 0) as [|Hup];
      [contradiction|].
    destruct (Z.eqb_spec (Z.land (netif.Flags iface) netif.FlagLoopback) 0)
      as [Hlo|]; [|contradiction].
    simpl in He.
    destruct (netif.Addrs iface) as [addrs [e|]] eqn:Ha; [contradiction|].
    rewrite fold_append_addr in He. simpl in He.
    apply in_flat_map in He. destruct He as (addr & Haddr & He).
    unfold append_addr in He. destruct addr as [ipnet|]; [|contradiction].
    destruct (netif.To4 (net.IPNet_IP ipnet)) eqn:H4; [|contradiction].
    destruct He as [<-|[]].
    exists iface, addrs, ipnet. repeat split; trivial. congruence.
  - intros (iface & addrs & ipnet & Hin & Hup & Hlo & Ha & Haddr & H4 & ->).
    exists iface. split; [assumption|].
    unfold append_iface, down_or_loopback.
    apply Z.eqb_neq in Hup. apply Z.eqb_eq in Hlo. rewrite Hup, Hlo, Ha. simpl.
    rewrite fold_append_addr. simpl.
    apply in_flat_map. exists (netif.IPNetAddr ipnet). split; [assumption|].
    unfold append_addr.
    destruct (netif.To4 (net.IPNet_IP ipnet)); [now left|contradiction].
Qed.

(** X14: the result keeps the order of the interfaces: the entries of a
    list of interfaces are those of its first part followed by those of the
    rest.  An interface that is down, is loopback, or whose [Addrs()] fails
    adds nothing, wherever it stands. *)
Theorem getNetworkInterfaces_in_order
        (before after : list netif.Interface) (iface : netif.Interface) :
  fst (getNetworkInterfaces (before ++ after, None))
  = fst (getNetworkInterfaces (before, None))
    ++ fst (getNetworkInterfaces (after, None))
  /\ (down_or_loopback iface = true \/ snd (netif.Addrs iface) <> None ->
      getNetworkInterfaces (before ++ iface :: after, None)
      = getNetworkInterfaces (before ++ after, None)).
Proof.
  rewrite !getNetworkInterfaces_flat_map. simpl. split.
  - apply flat_map_app.
  - intros Hskip. f_equal. rewrite !flat_map_app. simpl.
    assert (Hnone : append_iface [] iface = []).
    { unfold append_iface. destruct (down_or_loopback iface); trivial.
      destruct (netif.Addrs iface) as [addrs [e|]]; trivial.
      destruct Hskip as [|Hs]; [discriminate|]. now contradiction Hs. }
    now rewrite Hnone.
Qed.

(** ** [displayDevices]: the columns of the rows *)

Lemma string_length_append (s1 s2 : string) :
  String.length (s1 ++ s2) = (String.length s1 + String.length s2)%nat.
Proof. induction s1 as [|a s1 IH]; simpl; auto. Qed.

Lemma substring_after (s1 s2 : string) (m : nat) :
  String.substring (String.length s1) m (s1 ++ s2) = String.substring 0 m s2.
Proof. induction s1 as [|a s1 IH]; simpl; auto. Qed.

Lemma substring_prefix (s1 s2 : string) :
  String.substring 0 (String.length s1) (s1 ++ s2) = s1.
Proof. induction s1 as [|a s1 IH]; simpl; [now destruct s2|now rewrite IH]. Qed.

Lemma append_assoc_string (s1 s2 s3 : string) :
  ((s1 ++ s2) ++ s3 = s1 ++ (s2 ++ s3))%string.
Proof. induction s1 as [|a s1 IH]; simpl; [reflexivity|now rewrite IH]. Qed.

Lemma spaces_length (k : nat) : String.length (spaces k) = k.
Proof. induction k; simpl; auto. Qed.

(** A byte prints in one to three digits. *)
Lemma decimal_length (b : Z) :
  is_byte b -> (1 <= String.length (net.decimal b) <= 3)%nat.
Proof.
  intros Hb.
  assert (Hall : forallb (fun k => let len := String.length (net.decimal (Z.of_nat k)) in
                                   Nat.leb 1 len && Nat.leb len 3)
                         (seq 0 256) = true) by (vm_compute; reflexivity).
  rewrite forallb_forall in Hall.
  specialize (Hall (Z.to_nat b)). unfold is_byte in Hb.
  rewrite Z2Nat.id in Hall by lia.
  assert (Hin : In (Z.to_nat b) (seq 0 256)) by (apply in_seq; lia).
  apply Hall in Hin. apply andb_true_iff in Hin. destruct Hin as [H1 H3].
  apply Nat.leb_le in H1, H3. lia.
Qed.

(** A 4-byte address prints in at most 15 characters. *)
Lemma String_length (ip : net.IP) :
  ipv4 ip -> (7 <= String.length (net.String ip) <= 15)%nat.
Proof.
  intros Hip.
  destruct (ipv4_inv _ Hip) as (a & b & c & d & -> & Ha & Hb & Hc & Hd).
  unfold net.String. rewrite !string_length_append.
  assert (La := decimal_length a Ha). assert (Lb := decimal_length b Hb).
  assert (Lc := decimal_length c Hc). assert (Ld := decimal_length d Hd).
  simpl. lia.
Qed.

(** X15: in the rows [displayDevices] prints for a slice a sweep returned,
    the columns line up: after the two leading spaces comes the address, in
    full, padded to 15 characters, so that the separator before the name
    starts at the same column of every row. *)
Theorem device_rows_aligned
        (prober : string -> bool) (resolver : string -> string)
        (n : net.IPNet) (devices : list Device) (device : Device) :
  wf_net n ->
  scanSubnet_returns prober resolver n devices ->
  In device devices ->
  String.substring 2 (String.length (net.String (IP device))) (device_line device)
  = net.String (IP device)
  /\ String.length (pad_right 15 (net.String (IP device))) = 15%nat
  /\ String.substring 17 3 (device_line device) = " - "%string.
Proof.
  intros Hwf H Hd.
  assert (Hip : ipv4 (IP device)).
  { apply scanSubnet_returns_inv in H. destruct H as (fuel & cands & He & Hp & _).
    apply (Permutation_in _ (Permutation_sym Hp)) in Hd.
    apply found_In in Hd. destruct Hd as (c & Hc & _ & ->). simpl.
    apply (launched_ipv4 fuel n); trivial.
    now rewrite (enumerate_launched _ _ _ He). }
  assert (Hlen := String_length _ Hip).
  set (s := net.String (IP device)) in *.
  assert (Hpad : String.length (pad_right 15 s) = 15%nat).
  { unfold pad_right. rewrite string_length_append, spaces_length. lia. }
  assert (Hline : exists tail,
             device_line device
             = String " " (String " " (pad_right 15 s ++ (" - " ++ tail)))%string).
  { unfold device_line. fold s.
    destruct (negb (String.eqb (Hostname device) EmptyString)); eexists; reflexivity. }
  destruct Hline as [tail ->].
  split; [|split; [exact Hpad|]].
  - cbn [String.substring]. unfold pad_right.
    rewrite append_assoc_string. apply substring_prefix.
  - change 17%nat with (2 + 15)%nat. cbn [String.substring Nat.add].
    rewrite <- Hpad at 1. rewrite substring_after. now destruct tail.
Qed.

Lemma device_rows_aligned_witness :
  String.substring 2 (String.length (net.String [192; 168; 1; 50]))
                   (device_line (device_of fake_resolver [192; 168; 1; 50]))
  = net.String [192; 168; 1; 50]
  /\ String.length (pad_right 15 (net.String [192; 168; 1; 50])) = 15%nat
  /\ String.substring 17 3 (device_line (device_of fake_resolver [192; 168; 1; 50]))
     = " - "%string.
Proof.
  apply (device_rows_aligned fake_prober fake_resolver net_192_168_1
                             expected_devices
                             (device_of fake_resolver [192; 168; 1; 50])).
  - refine (proj1 (network_range_intro _ _ _ _ _ _)); reflexivity.
  - apply (scanSubnet_run_returns _ _ 257 (fun l => l)).
    + intros l. reflexivity.
    + vm_compute. reflexivity.
  - right. left. reflexivity.
Defined.

(** ** Ranges of at most 256 addresses: the returned slice is unique *)

Lemma final_octet_value (x : net.IP) :
  ipv4 x -> final_octet x = addr_value x mod 256.
Proof.
  intros Hx.
  destruct (ipv4_inv _ Hx) as (a & b & c & d & -> & Ha & Hb & Hc & Hd).
  rewrite addr_value_4. unfold final_octet, is_byte in *. simpl.
  Z.div_mod_to_equations. lia.
Qed.

(** X16: for a mask of leading ones with at most 8 host bits (a /24 or a
    smaller range) no two candidates share a final octet, so the order of
    the returned slice does not depend on the order in which the goroutines
    finish nor on the sort: two sweeps return the same sequence. *)
Theorem small_range_result_unique
        (prober : string -> bool) (resolver : string -> string)
        (n : net.IPNet) (h : Z) (r1 r2 : list Device) :
  wf_net n -> 0 <= h <= 8 -> host_bits (net.IPNet_Mask n) h ->
  scanSubnet_returns prober resolver n r1 ->
  scanSubnet_returns prober resolver n r2 ->
  r1 = r2.
Proof.
  intros Hwf Hh Hmask H1 H2.
  assert (Hp := scanSubnet_returns_perm _ _ _ _ _ H1 H2).
  assert (Hnd := scan_result_addresses_distinct prober resolver n r1 Hwf H1).
  apply scanSubnet_returns_inv in H1, H2.
  destruct H1 as (fuel & cands & He & Hp1 & Hs1), H2 as (_ & _ & _ & _ & Hs2).
  apply sorted_arrangement_unique; trivial.
  assert (Hkeys : map sort_key r1 = map final_octet (map IP r1))
    by (rewrite map_map; reflexivity).
  rewrite Hkeys. apply NoDup_map_NoDup_ForallPairs; [|exact Hnd].
  assert (Hcand : forall x, In x (map IP r1) ->
                            ipv4 x /\ net.Contains n x = true).
  { intros x Hx. apply in_map_iff in Hx. destruct Hx as (d & <- & Hd).
    apply (Permutation_in _ (Permutation_sym Hp1)) in Hd.
    apply found_In in Hd. destruct Hd as (c & Hc & _ & ->). simpl.
    rewrite <- (enumerate_launched _ _ _ He) in Hc. split.
    - apply (launched_ipv4 fuel n); assumption.
    - apply sweep_launched in Hc. exact (proj1 Hc). }
  assert (H256 : 2 ^ h <= 2 ^ 8) by (apply Z.pow_le_mono_r; lia).
  change (2 ^ 8) with 256 in H256.
  intros x y Hx Hy Hoct.
  destruct (Hcand x Hx) as [Ix Cx], (Hcand y Hy) as [Iy Cy].
  apply (Contains_interval n h Hwf ltac:(lia) Hmask x Ix) in Cx.
  apply (Contains_interval n h Hwf ltac:(lia) Hmask y Iy) in Cy.
  rewrite !final_octet_value in Hoct by assumption.
  apply addr_value_injective; trivial.
  Z.div_mod_to_equations. lia.
Qed.

Lemma small_range_result_unique_witness : expected_devices = expected_devices.
Proof.
  apply (small_range_result_unique fake_prober fake_resolver net_192_168_1 8).
  - refine (proj1 (network_range_intro _ _ _ _ _ _)); reflexivity.
  - lia.
  - reflexivity.
  - apply (scanSubnet_run_returns _ _ 257 (fun l => l)).
    + intros l. reflexivity.
    + vm_compute. reflexivity.
  - apply (scanSubnet_run_returns _ _ 300 (@rev Device)).
    + intros l. apply Permutation_rev.
    + vm_compute. reflexivity.
Defined.
